(** * Batcher-banyan bitonic sorting network (Validate/banyan.cu)

    A shallow embedding of the CUDA sources of the repository and the
    properties its specification states about them.

    Modelling conventions.
    - C integers are [Z] with the conversions written out: [to_int] for
      [int], [to_uint] for [unsigned int]/[uint], [to_ulong] for
      [unsigned long]/[ulong].
    - Keys are [float] in the source.  Only their order is used, so keys
      are modelled as [Z] (totally ordered, no NaN).
    - Device buffers are lists; a read or a write outside the list is a
      fault ([None]): C gives such an access no meaning.
    - A kernel launch is modelled as its loop body run once for every
      index its grid-stride loop reaches, in increasing order.  The
      iterations of one launch touch pairwise disjoint cells, so the order
      is immaterial.  The threads of a launch and their stride loops are
      modelled apart ([stride_loop]) and shown to reach these indices
      once each, whatever the shape of the launch; the limits a device
      puts on the shape of a launch are not modelled. *)

From Stdlib Require Import ZArith List Lia Bool Permutation Sorted.
Import ListNotations.
Local Open Scope Z_scope.

(** ** Machine integers *)

Definition to_ulong (z : Z) : Z := z mod 2 ^ 64.
Definition to_uint (z : Z) : Z := z mod 2 ^ 32.
Definition to_int (z : Z) : Z := (z + 2 ^ 31) mod 2 ^ 32 - 2 ^ 31.

(** ** Option monad for faulting device code *)

Definition bind {A B} (m : option A) (f : A -> option B) : option B :=
  match m with
  | Some a => f a
  | None => None
  end.

Notation "x <- m ;; k" := (bind m (fun x => k))
  (at level 61, m at next level, right associativity).

(** [for_each idx body s] runs [body] for the indices of [idx] in order,
    threading the state, and stops at the first fault. *)
Fixpoint for_each {S : Type} (idx : list Z) (body : Z -> S -> option S)
  (s : S) : option S :=
  match idx with
  | [] => Some s
  | i :: rest => s' <- body i s ;; for_each rest body s'
  end.

(** The index space [0, n) of a loop [for (i = 0; i < n; i++)]. *)
Definition range (n : Z) : list Z := map Z.of_nat (seq 0 (Z.to_nat n)).

(** Bounds-checked access to a device buffer. *)
Definition rd {A} (buf : list A) (i : Z) : option A :=
  if i <? 0 then None else nth_error buf (Z.to_nat i).

Fixpoint set_nth {A} (buf : list A) (i : nat) (v : A) : list A :=
  match buf, i with
  | [], _ => []
  | _ :: t, O => v :: t
  | h :: t, S i' => h :: set_nth t i' v
  end.

Definition wr {A} (buf : list A) (i : Z) (v : A) : option (list A) :=
  if (0 <=? i) && (i <? Z.of_nat (length buf))
  then Some (set_nth buf (Z.to_nat i) v)
  else None.

(** ** getN (banyan.cu, lines 9-15) *)

(** [while (N < size) N = N*2;] on [int]; [None] when the fuel runs out. *)
Fixpoint getN_loop (fuel : nat) (size N : Z) : option Z :=
  match fuel with
  | O => None
  | S fuel' =>
      if N <? size then getN_loop fuel' size (to_int (N * 2)) else Some N
  end.

Definition getN (fuel : nat) (size : Z) : option Z := getN_loop fuel size 2.

(** ** Permutation index maps *)

(** shuffleN, lines 28-33: the source position [ind_out] that output
    position [ind_in] of a chunk of [size] elements reads.  [size] is an
    [int], [ind_in] an [unsigned long]. *)
Definition shuffleN_ind_out (size ind_in : Z) : Z :=
  if ind_in mod 2 =? 0
  then ind_in / 2
  else to_ulong (to_ulong (Z.quot size 2) + ind_in / 2).

(** butterflyN, lines 54-65. *)
Definition butterflyN_ind_out (size ind_in : Z) : Z :=
  if ind_in <? to_ulong (Z.quot size 2)
  then
    if ind_in mod 2 =? 0
    then ind_in
    else to_ulong (ind_in + to_ulong (to_int (Z.quot size 2 - 1)))
  else
    if ind_in mod 2 =? 0
    then to_ulong (ind_in - to_ulong (to_int (Z.quot size 2 - 1)))
    else ind_in.

(** ** Permutation kernels *)

(** [out[ind_in_base+ind_in] = in[ind_in_base+ind_out]], lines 34 and 66.
    The state is the pair [(in, out)]. *)
Definition gather (ind_out : Z -> Z) (ind_in_base ind_in : Z)
  (s : list Z * list Z) : option (list Z * list Z) :=
  v <- rd (fst s) (to_ulong (ind_in_base + ind_out ind_in)) ;;
  out' <- wr (snd s) (to_ulong (ind_in_base + ind_in)) v ;;
  Some (fst s, out').

(** [in[ind_in_base+ind_in] = out[ind_in_base+ind_in]], lines 41 and 71. *)
Definition copy_back (ind_in_base ind_in : Z)
  (s : list Z * list Z) : option (list Z * list Z) :=
  v <- rd (snd s) (to_ulong (ind_in_base + ind_in)) ;;
  in' <- wr (fst s) (to_ulong (ind_in_base + ind_in)) v ;;
  Some (in', snd s).

(** One thread block: the gather loop, [__syncthreads()], the copy-back
    loop.  [ind_in_base = blockIdx.x*size] is computed in [unsigned int]. *)
Definition permute_block (ind_out : Z -> Z -> Z) (size blockIdx : Z)
  (s : list Z * list Z) : option (list Z * list Z) :=
  let ind_in_base := to_uint (blockIdx * size) in
  s1 <- for_each (range (to_ulong size)) (gather (ind_out size) ind_in_base) s ;;
  for_each (range (to_ulong size)) (copy_back ind_in_base) s1.

(** [shuffleN<<<gridDim, _>>>(in, out, size, N)]. *)
Definition shuffleN (gridDim : Z) (inb outb : list Z) (size N : Z)
  : option (list Z * list Z) :=
  for_each (range gridDim) (permute_block shuffleN_ind_out size) (inb, outb).

(** [butterflyN<<<gridDim, _>>>(in, out, size, N)]. *)
Definition butterflyN (gridDim : Z) (inb outb : list Z) (size N : Z)
  : option (list Z * list Z) :=
  for_each (range gridDim) (permute_block butterflyN_ind_out size) (inb, outb).

(** ** Compare-exchange *)

(** Line 87: [(bool)(comp_ind & (0x1 << level))]; the shift is done in
    [int] and widened to [unsigned long] for the conjunction. *)
Definition comp_bool (comp_ind level : Z) : bool :=
  negb (Z.land comp_ind (to_ulong (to_int (Z.shiftl 1 level))) =? 0).

(** Lines 94-96: the conditional [thrust::swap] of [in[data0]] and
    [in[data1]].  A set flag keeps the larger key first. *)
Definition compare_exchange (flag : bool) (data0 data1 : Z) (inb : list Z)
  : option (list Z) :=
  a <- rd inb data0 ;;
  b <- rd inb data1 ;;
  if (flag && (a <? b)) || (negb flag && (a >=? b))
  then in1 <- wr inb data0 b ;; wr in1 data1 a
  else Some inb.

(** Lines 87-96: one iteration of the comparator loop.  The state is the
    pair [(in, directions)]. *)
Definition compareAndSwap_body (level comp_ind : Z)
  (s : list Z * list bool) : option (list Z * list bool) :=
  let flag := comp_bool comp_ind level in
  directions' <- wr (snd s) comp_ind flag ;;
  let data0 := to_ulong (2 * comp_ind) in
  let data1 := to_ulong (2 * comp_ind + 1) in
  in' <- compare_exchange flag data0 data1 (fst s) ;;
  Some (in', directions').

(** The comparator positions one launch visits: [comp_ind < N], line 82. *)
Definition comparator_positions (N : Z) : list Z := range N.

(** [compareAndSwap<<<_, _>>>(in, directions, level, N)]. *)
Definition compareAndSwap (inb : list Z) (directions : list bool)
  (level N : Z) : option (list Z * list bool) :=
  for_each (comparator_positions N) (compareAndSwap_body level)
    (inb, directions).

(** The cells of [in] one comparator reads (and writes when it swaps). *)
Definition comparator_cells (comp_ind : Z) : list Z :=
  [to_ulong (2 * comp_ind); to_ulong (2 * comp_ind + 1)].

(** Every cell of [in] one launch touches. *)
Definition compareAndSwap_cells (N : Z) : list Z :=
  flat_map comparator_cells (comparator_positions N).

(** compare_and_switch, lines 388-406 (the staging variant). *)
Definition UP : Z := 0.
Definition DOWN : Z := 1.

Definition compare_and_switch (direction : Z) (in0 in1 : Z) : Z * Z :=
  let p1 :=
    if direction =? UP
    then if in1 >? in0 then (in1, in0) else (in0, in1)
    else (in0, in1) in
  if direction =? DOWN
  then if fst p1 >? snd p1 then (snd p1, fst p1) else p1
  else p1.

(** ** The driver benyan (lines 101-144) *)

Inductive kernel : Type :=
| CompareAndSwap (level N : Z)
| ShuffleN (gridDim size N : Z)
| ButterflyN (gridDim size N : Z).

(** Where in the loop nest a launch is issued: line 116 is phase (a),
    line 122 the shuffle, line 127 the second compare, line 130 the
    butterfly. *)
Inductive phase : Type := PhaseA | PhaseShuffle | PhaseB | PhaseButterfly.

Record launch : Type := mkLaunch {
  l_stage : Z;
  l_substage : Z;
  l_phase : phase;
  l_kernel : kernel
}.

(** The inner loop [while (substage <= stage)], lines 113-138.  The host
    never reads device memory, so its control flow and the launches it
    issues are a function of [N] and [n] alone.  Returns [level] at the
    loop exit and the launches issued; [None] when the fuel runs out.
    [div = N/(pow(2,2+stage-substage))] divides in [double], which is
    exact for a power of two [N], and truncates to [int]; [N/div] is
    evaluated only in the stages that are not the last, where [div] is
    not zero for [N = 2^n]. *)
Fixpoint benyan_substages (fuel : nat) (N n stage substage level : Z)
  : option (Z * list launch) :=
  match fuel with
  | O => None
  | S fuel' =>
      if substage <=? stage then
        let div := to_int (N / 2 ^ (2 + stage - substage)) in
        let a := mkLaunch stage substage PhaseA (CompareAndSwap level N) in
        if to_uint stage <? to_uint (n - 1) then
          let size := to_int (N / to_ulong div) in
          let sh :=
            if substage =? 0
            then [mkLaunch stage substage PhaseShuffle (ShuffleN div size N)]
            else [] in
          let level' := if substage =? 0 then to_int (level + 1) else level in
          let b := mkLaunch stage substage PhaseB (CompareAndSwap level' N) in
          let bf :=
            mkLaunch stage substage PhaseButterfly (ButterflyN div size N) in
          match benyan_substages fuel' N n stage (to_int (substage + 1)) level'
          with
          | Some (lv, rest) => Some (lv, a :: sh ++ b :: bf :: rest)
          | None => None
          end
        else Some (level, [a])
      else Some (level, [])
  end.

(** The outer loop [while (stage < n)], lines 112-141. *)
Fixpoint benyan_stages (fuel : nat) (N n stage level : Z)
  : option (list launch) :=
  match fuel with
  | O => None
  | S fuel' =>
      if to_uint stage <? n then
        match benyan_substages (Z.to_nat stage + 2) N n stage 0 level with
        | Some (level', ls) =>
            match benyan_stages fuel' N n (to_int (stage + 1)) level' with
            | Some rest => Some (ls ++ rest)
            | None => None
            end
        | None => None
        end
      else Some []
  end.

(** All launches of [benyan(x, y, comparators, N, n)], in order. *)
Definition benyan_launches (N n : Z) : option (list launch) :=
  benyan_stages (Z.to_nat n + 1) N n 0 0.

Record device : Type := mkDevice {
  x : list Z;
  y : list Z;
  comparators : list bool
}.

Definition run_kernel (k : kernel) (d : device) : option device :=
  match k with
  | CompareAndSwap level N =>
      r <- compareAndSwap (x d) (comparators d) level N ;;
      Some (mkDevice (fst r) (y d) (snd r))
  | ShuffleN gridDim size N =>
      r <- shuffleN gridDim (x d) (y d) size N ;;
      Some (mkDevice (fst r) (snd r) (comparators d))
  | ButterflyN gridDim size N =>
      r <- butterflyN gridDim (x d) (y d) size N ;;
      Some (mkDevice (fst r) (snd r) (comparators d))
  end.

Fixpoint run_launches (ls : list launch) (d : device) : option device :=
  match ls with
  | [] => Some d
  | l :: rest => d' <- run_kernel (l_kernel l) d ;; run_launches rest d'
  end.

(** [benyan(x, y, comparators, N, n)] on the device state. *)
Definition benyan (d : device) (N n : Z) : option device :=
  ls <- benyan_launches N n ;; run_launches ls d.

(** ** The benchmark entry point (lines 166-386) *)



Section Main.

(** [IsPowerOfTwo] comes from helper_nov.h, which is not among the
    sources; it is a parameter of the model. *)
Variable IsPowerOfTwo : Z -> bool.





End Main.

(** ** Predicates used to state the properties *)

(** [f] maps [0, S) onto [0, S) one to one: every index of the range is
    the image of exactly one index of the range. *)
Definition bijective_on (S : Z) (f : Z -> Z) : Prop :=
  (forall p, 0 <= p < S -> 0 <= f p < S) /\
  (forall j, 0 <= j < S ->
     exists p, 0 <= p < S /\ f p = j /\
       forall q, 0 <= q < S -> f q = j -> q = p).

(** The substage values at which the launch list issues the phase-(a)
    compare of a given stage, in order. *)
Definition is_phaseA (p : phase) : bool :=
  match p with
  | PhaseA => true
  | _ => false
  end.


(** ** Closed forms of the driver loops *)

(** The integers [a, a+1, ..., a+k-1]. *)
Fixpoint zrange (a : Z) (k : nat) : list Z :=
  match k with
  | O => []
  | S k' => a :: zrange (a + 1) k'
  end.

(** The launches of one pass through the body of the inner loop, taken
    in a stage that is not the last. *)
Definition substage_launches (N stage substage level : Z) : list launch :=
  let div := to_int (N / 2 ^ (2 + stage - substage)) in
  let size := to_int (N / to_ulong div) in
  let level' := if substage =? 0 then to_int (level + 1) else level in
  mkLaunch stage substage PhaseA (CompareAndSwap level N)
  :: (if substage =? 0
      then [mkLaunch stage substage PhaseShuffle (ShuffleN div size N)]
      else [])
  ++ [mkLaunch stage substage PhaseB (CompareAndSwap level' N);
      mkLaunch stage substage PhaseButterfly (ButterflyN div size N)].

(** [k] consecutive passes starting at [substage]. *)
Fixpoint stage_launches (k : nat) (N stage substage level : Z)
  : list launch :=
  match k with
  | O => []
  | S k' =>
      substage_launches N stage substage level
      ++ stage_launches k' N stage (substage + 1)
           (if substage =? 0 then to_int (level + 1) else level)
  end.

(** [k] full stages starting at [stage], then the last stage, which
    issues its phase-(a) compare and leaves the inner loop. *)
Fixpoint stages_launches (k : nat) (N stage level : Z) : list launch :=
  match k with
  | O => [mkLaunch stage 0 PhaseA (CompareAndSwap level N)]
  | S k' =>
      stage_launches (Z.to_nat stage + 1) N stage 0 level
      ++ stages_launches k' N (stage + 1) (to_int (level + 1))
  end.

(** ** The network as a function on the key list *)

(** The two keys of a comparator after the exchange. *)
Definition ord (flag : bool) (a b : Z) : list Z :=
  if flag then [Z.max a b; Z.min a b] else [Z.min a b; Z.max a b].

(** The effect of one compare launch on consecutive pairs, the first pair
    being the one of comparator [c]. *)
Fixpoint cas_pairs (level c : Z) (l : list Z) : list Z :=
  match l with
  | a :: b :: rest => ord (comp_bool c level) a b ++ cas_pairs level (c + 1) rest
  | _ => l
  end.


(** The effect of a permutation kernel on one chunk. *)
Definition apply_perm (ind_out : Z -> Z) (size : Z) (chunk : list Z)
  : list Z :=
  map (fun p => nth (Z.to_nat (ind_out p)) chunk 0) (range size).












(** ** The kernels of the network, level by level *)








(** ** Zero-one lists *)



(** ** The staging fragment: shuffle (lines 408-422) *)



(** ** The threads of a launch *)

(** [for (i = start; i < bound; i += stride)] on [unsigned long]: the
    values the loop variable takes in the body, in order; [None] when the
    fuel runs out. *)
Fixpoint stride_loop (fuel : nat) (i stride bound : Z) : option (list Z) :=
  match fuel with
  | O => None
  | S fuel' =>
      if i <? bound
      then rest <- stride_loop fuel' (to_ulong (i + stride)) stride bound ;;
           Some (i :: rest)
      else Some []
  end.

(** The lists of several threads, one after the other. *)
Fixpoint collect (ms : list (option (list Z))) : option (list Z) :=
  match ms with
  | [] => Some []
  | m :: rest => l <- m ;; ls <- collect rest ;; Some (l ++ ls)
  end.

(** compareAndSwap, lines 79-83: the comparator positions that thread
    [threadIdx] of block [blockIdx] visits.  The stride
    [blockDim.x*gridDim.x] is a product of [unsigned int]; the first
    position is computed in [unsigned long]. *)
Definition compareAndSwap_thread (fuel : nat)
  (gridDim blockDim blockIdx threadIdx N : Z) : option (list Z) :=
  stride_loop fuel (to_ulong (blockDim * blockIdx + threadIdx))
    (to_uint (blockDim * gridDim)) N.

(** The positions visited by a launch of [gridDim] blocks of [blockDim]
    threads, block by block and thread by thread. *)
Definition compareAndSwap_threads (fuel : nat) (gridDim blockDim N : Z)
  : option (list Z) :=
  collect
    (map (fun b =>
            collect
              (map (fun t => compareAndSwap_thread fuel gridDim blockDim b t N)
                   (range blockDim)))
         (range gridDim)).

(** shuffleN and butterflyN, lines 25-26, 40, 52-53 and 70: the positions
    [ind_in] that thread [threadIdx] of a block of [blockDim] threads
    visits in each of the two loops. *)
Definition permute_thread (fuel : nat) (blockDim threadIdx size : Z)
  : option (list Z) :=
  stride_loop fuel threadIdx blockDim (to_ulong size).

Definition permute_threads (fuel : nat) (blockDim size : Z)
  : option (list Z) :=
  collect (map (fun t => permute_thread fuel blockDim t size) (range blockDim)).

(** ** Predicates on the result of a permutation launch *)

(** A launch of [g] blocks on chunks of [size] cells took the buffers
    [(inb, outb)] to [(inb', outb')]: every chunk of [in] is rearranged by
    the index map [ind_out], [out] ends as a copy of the rearranged
    chunks, and nothing else changes. *)
Definition permuted_by (ind_out : Z -> Z) (g size : Z)
  (inb outb inb' outb' : list Z) : Prop :=
  length inb' = length inb /\ length outb' = length outb /\
  Permutation inb inb' /\
  (forall b p, 0 <= b < g -> 0 <= p < size ->
     nth (Z.to_nat (b * size + p)) inb' 0
       = nth (Z.to_nat (b * size + ind_out p)) inb 0) /\
  (forall i, 0 <= i < g * size ->
     nth (Z.to_nat i) outb' 0 = nth (Z.to_nat i) inb' 0) /\
  (forall i, g * size <= i ->
     nth (Z.to_nat i) inb' 0 = nth (Z.to_nat i) inb 0 /\
     nth (Z.to_nat i) outb' 0 = nth (Z.to_nat i) outb 0).

(** [t] shuffle launches in a row. *)
Fixpoint shuffleN_times (t : nat) (gridDim : Z) (inb outb : list Z)
  (size N : Z) : option (list Z * list Z) :=
  match t with
  | O => Some (inb, outb)
  | S t' =>
      r <- shuffleN gridDim inb outb size N ;;
      shuffleN_times t' gridDim (fst r) (snd r) size N
  end.

(** ** The launches of benyan: kinds, parameters and shapes *)





(** The parameters of a launch of benyan on [2^n] keys, by the stage [s]
    and the substage [t] that issue it. *)
Definition launch_parameters (n : Z) (l : launch) : Prop :=
  let s := l_stage l in
  let t := l_substage l in
  0 <= t <= s /\ s <= n - 1 /\
  match l_kernel l with
  | CompareAndSwap level N =>
      N = 2 ^ n /\
      level = (if (t =? 0) && is_phaseA (l_phase l) then s else s + 1) /\
      0 <= level <= n - 1
  | ShuffleN g size N =>
      t = 0 /\ s <= n - 2 /\
      g = 2 ^ (n - 2 - s) /\ size = 2 ^ (s + 2) /\ N = 2 ^ n
  | ButterflyN g size N =>
      s <= n - 2 /\
      g = 2 ^ (n - 2 - s + t) /\ size = 2 ^ (2 + s - t) /\ N = 2 ^ n
  end.

(** Lines 109-110: [compThreadNum = 512] and
    [compBlockNum = min((long)65535, (N+compThreadNum-1)/compThreadNum)].
    The quotient is computed in [unsigned long]; the minimum of a [long]
    and an [unsigned long] compares them as unsigned numbers, which for
    65535 is the minimum of the two integers; the result is stored in an
    [int]. *)
Definition compThreadNum : Z := 512.

Definition compBlockNum (N : Z) : Z :=
  to_int (Z.min 65535
            (to_ulong (N + to_ulong compThreadNum - 1)
             / to_ulong compThreadNum)).

(** Line 120: [threadNum = min((long)1024, N/div)]. *)
Definition threadNum (N div : Z) : Z :=
  to_int (Z.min 1024 (N / to_ulong div)).

(** The execution configuration [<<<grid, block>>>] of a launch: lines
    116 and 127 pass [compThreadNum] as the number of blocks and
    [compBlockNum] as the number of threads of a block; lines 122 and 130
    pass [div] and [threadNum]. *)
Definition launch_shape (k : kernel) : Z * Z :=
  match k with
  | CompareAndSwap _ N => (compThreadNum, compBlockNum N)
  | ShuffleN div _ N => (div, threadNum N div)
  | ButterflyN div _ N => (div, threadNum N div)
  end.

(** ** What benyan leaves alone *)

(** Between the device states [d] and [d'] the three buffers keep their
    lengths, the cells of [x] are rearranged, and nothing changes in [x]
    from cell [2N] on, nor in [y] and [comparators] from cell [N] on. *)
Definition benyan_frame (N : Z) (d d' : device) : Prop :=
  length (x d') = length (x d) /\
  length (y d') = length (y d) /\
  length (comparators d') = length (comparators d) /\
  Permutation (x d) (x d') /\
  (forall i, 2 * N <= i ->
     nth (Z.to_nat i) (x d') 0 = nth (Z.to_nat i) (x d) 0) /\
  (forall i, N <= i ->
     nth (Z.to_nat i) (y d') 0 = nth (Z.to_nat i) (y d) 0) /\
  (forall i, N <= i ->
     nth (Z.to_nat i) (comparators d') false
       = nth (Z.to_nat i) (comparators d) false).

(** ** Reading an event trace of the benchmark *)



(** ** Launches that change nothing *)


(** * Properties *)

(** ** Machine integers *)

Lemma to_ulong_id z : 0 <= z < 2 ^ 64 -> to_ulong z = z.
Proof. intros H. unfold to_ulong. apply Z.mod_small. exact H. Qed.

Lemma to_uint_id z : 0 <= z < 2 ^ 32 -> to_uint z = z.
Proof. intros H. unfold to_uint. apply Z.mod_small. exact H. Qed.

Lemma to_int_id z : - 2 ^ 31 <= z < 2 ^ 31 -> to_int z = z.
Proof.
  intros H. unfold to_int. rewrite Z.mod_small; lia.
Qed.

Lemma pow2_pos k : 0 <= k -> 0 < 2 ^ k.
Proof. intros. apply Z.pow_pos_nonneg; lia. Qed.

Lemma pow2_le_mono a b : 0 <= a <= b -> 2 ^ a <= 2 ^ b.
Proof. intros. apply Z.pow_le_mono_r; lia. Qed.

Lemma pow2_succ k : 0 <= k -> 2 ^ (k + 1) = 2 * 2 ^ k.
Proof. intros. rewrite Z.pow_add_r by lia. lia. Qed.

(** ** Index ranges *)

Lemma in_range n i : In i (range n) <-> 0 <= i < n.
Proof.
  unfold range. rewrite in_map_iff. split.
  - intros [k [<- Hk]]. apply in_seq in Hk. lia.
  - intros H. exists (Z.to_nat i). split; [lia|]. apply in_seq. lia.
Qed.

Lemma range_length n : length (range n) = Z.to_nat n.
Proof. unfold range. now rewrite length_map, length_seq. Qed.

Lemma range_NoDup n : NoDup (range n).
Proof.
  unfold range. apply Finite.Injective_map_NoDup_in.
  - intros a b _ _ H. lia.
  - apply seq_NoDup.
Qed.

Lemma bijective_on_Permutation S f :
  bijective_on S f -> Permutation (map f (range S)) (range S).
Proof.
  intros [Hr Hb]. apply Permutation_map_same_l.
  - apply Finite.Injective_map_NoDup_in; [|apply range_NoDup].
    intros a b Ha Hb' Hab. apply in_range in Ha, Hb'.
    destruct (Hb (f a) (Hr a Ha)) as [p [_ [_ Hu]]].
    rewrite (Hu a Ha eq_refl). symmetry. apply Hu; [exact Hb'|now symmetry].
  - intros j Hj. apply in_map_iff in Hj. destruct Hj as [p [<- Hp]].
    apply in_range. apply Hr. now apply in_range.
Qed.

(** ** getN *)

Lemma getN_loop_spec size :
  size <= 2 ^ 30 ->
  forall fuel k,
    1 <= k <= 30 -> (Z.to_nat (31 - k) <= fuel)%nat ->
    (k = 1 \/ 2 ^ (k - 1) < size) ->
    exists j, k <= j <= 30 /\
      getN_loop fuel size (2 ^ k) = Some (2 ^ j) /\
      size <= 2 ^ j /\ (j = 1 \/ 2 ^ (j - 1) < size).
Proof.
  intros Hs. induction fuel as [|fuel IH]; intros k Hk Hf Hmin.
  - lia.
  - cbn [getN_loop]. destruct (2 ^ k <? size) eqn:E.
    + apply Z.ltb_lt in E.
      assert (k < 30).
      { destruct (Z.eq_dec k 30) as [->|]; lia. }
      assert (H2 : 2 ^ (k + 1) <= 2 ^ 30) by (apply pow2_le_mono; lia).
      rewrite pow2_succ in H2 by lia.
      rewrite to_int_id by (pose proof (pow2_pos k); lia).
      replace (2 ^ k * 2) with (2 ^ (k + 1)) by (rewrite pow2_succ; lia).
      assert (Hmin' : k + 1 = 1 \/ 2 ^ (k + 1 - 1) < size).
      { right. now replace (k + 1 - 1) with k by lia. }
      assert (Hk' : 1 <= k + 1 <= 30) by lia.
      assert (Hf' : (Z.to_nat (31 - (k + 1)) <= fuel)%nat) by lia.
      destruct (IH (k + 1) Hk' Hf' Hmin') as [j [Hj [Hg [Hle Hm]]]].
      exists j. repeat split; try lia; assumption.
    + apply Z.ltb_ge in E. exists k. repeat split; lia.
Qed.

Lemma getN_loop_zero size fuel : 0 < size -> getN_loop fuel size 0 = None.
Proof.
  intros H. induction fuel as [|fuel IH]; [reflexivity|].
  cbn [getN_loop]. destruct (0 <? size) eqn:E.
  - exact IH.
  - apply Z.ltb_ge in E. lia.
Qed.

Lemma getN_loop_step size fuel N :
  N < size -> getN_loop (S fuel) size N = getN_loop fuel size (to_int (N * 2)).
Proof. intros H. cbn [getN_loop]. apply Z.ltb_lt in H. now rewrite H. Qed.

(** C10, as stated, fails where the doubling leaves [int]: for
    [size = 2^30 + 1] the loop reaches [2^30], doubles it to [-2^31], then
    to [0], and never ends. *)
Lemma getN_overflow_counterexample :
  ~ exists fuel r, getN fuel (2 ^ 30 + 1) = Some r.
Proof.
  intros [fuel [r H]]. unfold getN in H.
  do 32 (destruct fuel as [|fuel]; [discriminate H|];
         rewrite getN_loop_step in H by (vm_compute; reflexivity)).
  replace (to_int _) with 0 in H by (vm_compute; reflexivity).
  rewrite getN_loop_zero in H by (vm_compute; reflexivity). discriminate H.
Qed.

(** C10 (amended): for every [size] with [1 <= size <= 2^30], [getN]
    returns the smallest power of two that is at least [size] and at
    least 2; it returns [size] itself when [size] is a power of two that is
    at least 2, and 2 for [size = 1]. *)
Theorem getN_smallest_power_of_two (size : Z) (fuel : nat) :
  1 <= size <= 2 ^ 30 -> (30 <= fuel)%nat ->
  exists k, 1 <= k /\
    getN fuel size = Some (2 ^ k) /\
    size <= 2 ^ k /\
    (forall j, 1 <= j -> size <= 2 ^ j -> 2 ^ k <= 2 ^ j) /\
    (forall j, 1 <= j -> size = 2 ^ j -> 2 ^ k = size) /\
    (size = 1 -> 2 ^ k = 2).
Proof.
  intros Hs Hf.
  destruct (getN_loop_spec size (proj2 Hs) fuel 1) as [k [Hk [Hg [Hle Hm]]]];
    try lia.
  assert (Hsmall : forall j, 1 <= j -> size <= 2 ^ j -> 2 ^ k <= 2 ^ j).
  { intros j Hj Hsj. destruct Hm as [->|Hm]; [apply pow2_le_mono; lia|].
    destruct (Z_lt_le_dec j k) as [Hlt|Hge]; [|apply pow2_le_mono; lia].
    assert (2 ^ j <= 2 ^ (k - 1)) by (apply pow2_le_mono; lia). lia. }
  exists k. repeat split; try lia; try assumption.
  - intros j Hj Hsj. specialize (Hsmall j Hj). lia.
  - intros ->. specialize (Hsmall 1). change (2 ^ 1) with 2 in Hsmall.
    assert (2 <= 2 ^ k) by (change 2 with (2 ^ 1) at 1; apply pow2_le_mono; lia).
    lia.
Qed.

Lemma getN_smallest_power_of_two_witness :
  exists k, 1 <= k /\
    getN 30 5 = Some (2 ^ k) /\
    5 <= 2 ^ k /\
    (forall j, 1 <= j -> 5 <= 2 ^ j -> 2 ^ k <= 2 ^ j) /\
    (forall j, 1 <= j -> 5 = 2 ^ j -> 2 ^ k = 5) /\
    (5 = 1 -> 2 ^ k = 2).
Proof.
  apply (getN_smallest_power_of_two 5 30); [vm_compute; split; discriminate|lia].
Defined.

(** ** The index maps of shuffleN and butterflyN *)

Lemma two_pow_64 : 2 ^ 64 = 18446744073709551616.
Proof. reflexivity. Qed.

Lemma two_pow_32 : 2 ^ 32 = 4294967296.
Proof. reflexivity. Qed.

Lemma two_pow_31 : 2 ^ 31 = 2147483648.
Proof. reflexivity. Qed.

Lemma two_pow_30 : 2 ^ 30 = 1073741824.
Proof. reflexivity. Qed.

(** Linear arithmetic with the divisions and remainders by constants
    turned into their defining equations. *)
Ltac zlia := Z.to_euclidean_division_equations; lia.

(** Unfold the integer conversions down to remainders by literals. *)
Ltac unfold_conv :=
  unfold to_ulong, to_uint, to_int in *;
  rewrite ?two_pow_64, ?two_pow_32, ?two_pow_31 in *.

Ltac bool_to_prop :=
  repeat match goal with
  | H : (_ <? _) = true |- _ => apply Z.ltb_lt in H
  | H : (_ <? _) = false |- _ => apply Z.ltb_ge in H
  | H : (_ =? _) = true |- _ => apply Z.eqb_eq in H
  | H : (_ =? _) = false |- _ => apply Z.eqb_neq in H
  | H : (_ <=? _) = true |- _ => apply Z.leb_le in H
  | H : (_ <=? _) = false |- _ => apply Z.leb_gt in H
  end.

(** A power of two from 2 to 2^30 is 2 or a multiple of 4. *)
Lemma pow2_shape k :
  1 <= k <= 30 -> 2 <= 2 ^ k <= 1073741824 /\ (2 ^ k = 2 \/ exists q, 2 ^ k = 4 * q).
Proof.
  intros Hk. split.
  - rewrite <- two_pow_30. change 2 with (2 ^ 1) at 1.
    split; apply pow2_le_mono; lia.
  - destruct (Z.eq_dec k 1) as [->|Hne]; [now left|right].
    exists (2 ^ (k - 2)). change 4 with (2 ^ 2).
    rewrite <- Z.pow_add_r by lia. f_equal. lia.
Qed.

Lemma shuffleN_ind_out_range S p :
  2 <= S <= 1073741824 -> S mod 2 = 0 -> 0 <= p < S ->
  0 <= shuffleN_ind_out S p < S.
Proof.
  intros HS He Hp. unfold shuffleN_ind_out.
  destruct (p mod 2 =? 0) eqn:E; bool_to_prop; unfold_conv; zlia.
Qed.

Lemma shuffleN_ind_out_even S p :
  0 <= p -> shuffleN_ind_out S (2 * p) = p.
Proof.
  intros Hp. unfold shuffleN_ind_out.
  destruct (2 * p mod 2 =? 0) eqn:E; bool_to_prop; zlia.
Qed.

Lemma shuffleN_ind_out_odd S p :
  2 <= S <= 1073741824 -> 0 <= p < S ->
  shuffleN_ind_out S (2 * p + 1) = S / 2 + p.
Proof.
  intros HS Hp. unfold shuffleN_ind_out.
  destruct ((2 * p + 1) mod 2 =? 0) eqn:E; bool_to_prop; unfold_conv; zlia.
Qed.

Lemma shuffleN_ind_out_inv S p j :
  2 <= S <= 1073741824 -> S mod 2 = 0 -> 0 <= p < S ->
  shuffleN_ind_out S p = j ->
  p = if j <? S / 2 then 2 * j else 2 * (j - S / 2) + 1.
Proof.
  intros HS He Hp. unfold shuffleN_ind_out.
  destruct (p mod 2 =? 0) eqn:E; destruct (j <? S / 2) eqn:Ej;
    bool_to_prop; unfold_conv; intros <-; zlia.
Qed.

Lemma shuffleN_bijective S :
  2 <= S <= 1073741824 -> S mod 2 = 0 -> bijective_on S (shuffleN_ind_out S).
Proof.
  intros HS He. split.
  - intros p Hp. now apply shuffleN_ind_out_range.
  - intros j Hj.
    exists (if j <? S / 2 then 2 * j else 2 * (j - S / 2) + 1).
    destruct (j <? S / 2) eqn:Ej; bool_to_prop.
    + split; [zlia|]. split; [apply shuffleN_ind_out_even; lia|].
      intros q Hq Hqj.
      pose proof (shuffleN_ind_out_inv S q j HS He Hq Hqj) as Hi.
      destruct (j <? S / 2) eqn:Ej'; bool_to_prop; zlia.
    + split; [zlia|]. split.
      * rewrite shuffleN_ind_out_odd by zlia. lia.
      * intros q Hq Hqj.
        pose proof (shuffleN_ind_out_inv S q j HS He Hq Hqj) as Hi.
        destruct (j <? S / 2) eqn:Ej'; bool_to_prop; zlia.
Qed.

Lemma shuffleN_bijective_one : bijective_on 1 (shuffleN_ind_out 1).
Proof.
  split.
  - intros p Hp. assert (p = 0) by lia. subst p. vm_compute. split; congruence.
  - intros j Hj. exists 0. assert (j = 0) by lia. subst j.
    split; [lia|]. split; [reflexivity|]. intros q Hq _. lia.
Qed.

Lemma butterflyN_ind_out_range S p :
  2 <= S <= 1073741824 -> (S = 2 \/ exists q, S = 4 * q) -> 0 <= p < S ->
  0 <= butterflyN_ind_out S p < S.
Proof.
  intros HS Hsh Hp. unfold butterflyN_ind_out.
  destruct Hsh as [->|[q ->]].
  - assert (p = 0 \/ p = 1) as [-> | ->] by lia; vm_compute; split; congruence.
  - destruct (p <? _) eqn:E1; destruct (p mod 2 =? 0) eqn:E2;
      bool_to_prop; unfold_conv; zlia.
Qed.

(** The butterfly map is its own inverse. *)
Lemma butterflyN_ind_out_involutive S p :
  2 <= S <= 1073741824 -> (S = 2 \/ exists q, S = 4 * q) -> 0 <= p < S ->
  butterflyN_ind_out S (butterflyN_ind_out S p) = p.
Proof.
  intros HS Hsh Hp.
  destruct Hsh as [->|[q ->]].
  - assert (p = 0 \/ p = 1) as [-> | ->] by lia; reflexivity.
  - unfold butterflyN_ind_out at 2.
    destruct (p <? _) eqn:E1; destruct (p mod 2 =? 0) eqn:E2;
      unfold butterflyN_ind_out;
      match goal with
      | |- context [if ?a <? ?b then _ else _] =>
          destruct (a <? b) eqn:E3
      end;
      match goal with
      | |- context [if ?a =? 0 then _ else _] =>
          destruct (a =? 0) eqn:E4
      end;
      bool_to_prop; unfold_conv; zlia.
Qed.

Lemma butterflyN_bijective S :
  2 <= S <= 1073741824 -> (S = 2 \/ exists q, S = 4 * q) ->
  bijective_on S (butterflyN_ind_out S).
Proof.
  intros HS Hsh. split.
  - intros p Hp. now apply butterflyN_ind_out_range.
  - intros j Hj. exists (butterflyN_ind_out S j).
    split; [now apply butterflyN_ind_out_range|].
    split; [now apply butterflyN_ind_out_involutive|].
    intros q Hq <-. symmetry. now apply butterflyN_ind_out_involutive.
Qed.

(** C2, as stated, fails for the butterfly at the power of two [S = 1]:
    output position 0 reads source position [0 - (0 - 1) = 1], outside
    the chunk. *)
Lemma butterflyN_size_one_counterexample :
  butterflyN_ind_out 1 0 = 1 /\ ~ bijective_on 1 (butterflyN_ind_out 1).
Proof.
  split; [reflexivity|]. intros [Hr _].
  specialize (Hr 0 ltac:(lia)). vm_compute in Hr. destruct Hr as [_ Hr].
  discriminate Hr.
Qed.

(** C2 (amended): for every power of two [S] the index map of shuffleN on
    a chunk of [S] elements is a bijection of [0, S), and for every power of
    two [S >= 2] so is the index map of butterflyN: the source indices read
    over all output positions are a permutation of [0, S). *)
Theorem permutation_index_maps_bijective (k S : Z) :
  S = 2 ^ k -> 0 <= k <= 30 ->
  (bijective_on S (shuffleN_ind_out S) /\
   Permutation (map (shuffleN_ind_out S) (range S)) (range S)) /\
  (1 <= k ->
   bijective_on S (butterflyN_ind_out S) /\
   Permutation (map (butterflyN_ind_out S) (range S)) (range S)).
Proof.
  intros -> Hk. split.
  - assert (Hb : bijective_on (2 ^ k) (shuffleN_ind_out (2 ^ k))).
    { destruct (Z.eq_dec k 0) as [->|Hne]; [apply shuffleN_bijective_one|].
      destruct (pow2_shape k ltac:(lia)) as [Hr Hsh].
      apply shuffleN_bijective; [exact Hr|].
      destruct Hsh as [->|[q ->]]; [reflexivity|zlia]. }
    split; [exact Hb|now apply bijective_on_Permutation].
  - intros Hk1. destruct (pow2_shape k ltac:(lia)) as [Hr Hsh].
    assert (Hb : bijective_on (2 ^ k) (butterflyN_ind_out (2 ^ k)))
      by now apply butterflyN_bijective.
    split; [exact Hb|now apply bijective_on_Permutation].
Qed.

Lemma permutation_index_maps_bijective_witness :
  (bijective_on 8 (shuffleN_ind_out 8) /\
   Permutation (map (shuffleN_ind_out 8) (range 8)) (range 8)) /\
  (1 <= 3 ->
   bijective_on 8 (butterflyN_ind_out 8) /\
   Permutation (map (butterflyN_ind_out 8) (range 8)) (range 8)).
Proof.
  apply (permutation_index_maps_bijective 3 8); [reflexivity|lia].
Defined.

(** C4, as stated, fails at [S = 8]: the element at the even source index
    2 is read by output position 4 only, which lies in the second half. *)
Lemma shuffleN_unshuffle_counterexample :
  shuffleN 1 [10; 11; 12; 13; 14; 15; 16; 17] (repeat 0 8%nat) 8 8
    = Some ([10; 14; 11; 15; 12; 16; 13; 17],
            [10; 14; 11; 15; 12; 16; 13; 17]) /\
  shuffleN_ind_out 8 4 = 2 /\
  ~ (forall q, 0 <= q < 8 -> shuffleN_ind_out 8 q = 2 -> 0 <= q < 8 / 2).
Proof.
  split; [reflexivity|]. split; [reflexivity|].
  intros H. specialize (H 4 ltac:(lia) eq_refl). vm_compute in H.
  destruct H as [_ H]. discriminate H.
Qed.

(** ** Device buffers *)

Lemma set_nth_length {A} (l : list A) i v : length (set_nth l i v) = length l.
Proof.
  revert i. induction l as [|h t IH]; intros [|i]; simpl; auto.
Qed.

Lemma nth_error_set_nth_eq {A} (l : list A) i v :
  (i < length l)%nat -> nth_error (set_nth l i v) i = Some v.
Proof.
  revert i. induction l as [|h t IH]; intros [|i] H; simpl in *;
    try lia; auto. apply IH. lia.
Qed.

Lemma nth_error_set_nth_ne {A} (l : list A) i j v :
  i <> j -> nth_error (set_nth l i v) j = nth_error l j.
Proof.
  revert i j. induction l as [|h t IH]; intros [|i] [|j] H; simpl;
    try congruence; auto.
Qed.

Lemma set_nth_same {A} (l : list A) i v :
  nth_error l i = Some v -> set_nth l i v = l.
Proof.
  revert i. induction l as [|h t IH]; intros [|i] H; simpl in *;
    try congruence. f_equal. now apply IH.
Qed.

Lemma rd_Some_range {A} (l : list A) i v :
  rd l i = Some v -> 0 <= i < Z.of_nat (length l).
Proof.
  unfold rd. destruct (i <? 0) eqn:E; [discriminate|]. bool_to_prop.
  intros H. assert (nth_error l (Z.to_nat i) <> None) by congruence.
  apply nth_error_Some in H0. lia.
Qed.

Lemma rd_nth_error {A} (l : list A) i :
  0 <= i -> rd l i = nth_error l (Z.to_nat i).
Proof.
  intros H. unfold rd. destruct (i <? 0) eqn:E; bool_to_prop; [lia|reflexivity].
Qed.

Lemma wr_Some {A} (l : list A) i v :
  0 <= i < Z.of_nat (length l) -> wr l i v = Some (set_nth l (Z.to_nat i) v).
Proof.
  intros H. unfold wr.
  destruct (0 <=? i) eqn:E1; destruct (i <? Z.of_nat (length l)) eqn:E2;
    bool_to_prop; try lia; reflexivity.
Qed.

Lemma wr_inv {A} (l l' : list A) i v :
  wr l i v = Some l' ->
  0 <= i < Z.of_nat (length l) /\ l' = set_nth l (Z.to_nat i) v.
Proof.
  unfold wr.
  destruct (0 <=? i) eqn:E1; destruct (i <? Z.of_nat (length l)) eqn:E2;
    simpl; try discriminate. bool_to_prop. intros [= <-]. auto.
Qed.

Lemma rd_set_nth_eq {A} (l : list A) i v :
  0 <= i < Z.of_nat (length l) -> rd (set_nth l (Z.to_nat i) v) i = Some v.
Proof.
  intros H. rewrite rd_nth_error by lia. apply nth_error_set_nth_eq. lia.
Qed.

Lemma rd_set_nth_ne {A} (l : list A) i j v :
  0 <= i -> i <> j -> rd (set_nth l (Z.to_nat i) v) j = rd l j.
Proof.
  intros Hi Hne. unfold rd. destruct (j <? 0) eqn:E; [reflexivity|].
  bool_to_prop. apply nth_error_set_nth_ne. lia.
Qed.

Lemma wr_same {A} (l : list A) i v : rd l i = Some v -> wr l i v = Some l.
Proof.
  intros H. pose proof (rd_Some_range l i v H) as Hr.
  rewrite wr_Some by exact Hr. f_equal. apply set_nth_same.
  rewrite <- rd_nth_error by lia. exact H.
Qed.

(** ** Compare-exchange *)

Lemma swap_condition flag a b :
  (flag && (a <? b)) || (negb flag && (a >=? b)) = true ->
  (if flag then Z.max a b else Z.min a b) = b /\
  (if flag then Z.min a b else Z.max a b) = a.
Proof.
  destruct flag; simpl; rewrite ?orb_false_r; intros H.
  - apply Z.ltb_lt in H. lia.
  - apply Z.geb_le in H. lia.
Qed.

Lemma keep_condition flag a b :
  (flag && (a <? b)) || (negb flag && (a >=? b)) = false ->
  (if flag then Z.max a b else Z.min a b) = a /\
  (if flag then Z.min a b else Z.max a b) = b.
Proof.
  destruct flag; simpl; rewrite ?orb_false_r; intros H.
  - apply Z.ltb_ge in H. lia.
  - rewrite Z.geb_leb in H. apply Z.leb_gt in H. lia.
Qed.

Lemma compare_exchange_spec flag data0 data1 a b inb :
  data0 <> data1 -> rd inb data0 = Some a -> rd inb data1 = Some b ->
  exists inb',
    compare_exchange flag data0 data1 inb = Some inb' /\
    rd inb' data0 = Some (if flag then Z.max a b else Z.min a b) /\
    rd inb' data1 = Some (if flag then Z.min a b else Z.max a b) /\
    length inb' = length inb /\
    (forall i, i <> data0 -> i <> data1 -> rd inb' i = rd inb i).
Proof.
  intros Hne H0 H1. unfold compare_exchange. rewrite H0, H1. cbn [bind].
  pose proof (rd_Some_range _ _ _ H0) as R0.
  pose proof (rd_Some_range _ _ _ H1) as R1.
  destruct ((flag && (a <? b)) || (negb flag && (a >=? b))) eqn:E.
  - destruct (swap_condition _ _ _ E) as [-> ->].
    rewrite wr_Some by exact R0. cbn [bind].
    rewrite wr_Some by (rewrite set_nth_length; exact R1).
    eexists. split; [reflexivity|]. repeat split.
    + rewrite rd_set_nth_ne by lia. apply rd_set_nth_eq. exact R0.
    + apply rd_set_nth_eq. rewrite set_nth_length. exact R1.
    + now rewrite !set_nth_length.
    + intros i Hi0 Hi1. rewrite !rd_set_nth_ne by lia. reflexivity.
  - destruct (keep_condition _ _ _ E) as [-> ->].
    exists inb. auto.
Qed.

Lemma compare_and_switch_DOWN a b :
  compare_and_switch DOWN a b = (Z.min a b, Z.max a b).
Proof.
  unfold compare_and_switch, DOWN, UP. cbn.
  destruct (a >? b) eqn:E; rewrite Z.gtb_ltb in E; bool_to_prop;
    f_equal; lia.
Qed.

Lemma compare_and_switch_UP a b :
  compare_and_switch UP a b = (Z.max a b, Z.min a b).
Proof.
  unfold compare_and_switch, DOWN, UP. cbn.
  destruct (b >? a) eqn:E; rewrite Z.gtb_ltb in E; bool_to_prop;
    cbn; f_equal; lia.
Qed.

(** C5: the compare-exchange of [compareAndSwap] (lines 94-96) orders its
    two operands: with the flag clear the smaller key ends up first
    (ascending), with the flag set the larger key ends up first; the buffer
    keeps its length and every other cell keeps its value.  The staging
    variant [compare_and_switch] does the same on its two operands, with
    [DOWN] putting the smaller key first and [UP] the larger. *)
Theorem compare_exchange_orders_its_operands
  (flag : bool) (data0 data1 a b : Z) (inb : list Z) :
  data0 <> data1 -> rd inb data0 = Some a -> rd inb data1 = Some b ->
  (exists inb',
     compare_exchange flag data0 data1 inb = Some inb' /\
     rd inb' data0 = Some (if flag then Z.max a b else Z.min a b) /\
     rd inb' data1 = Some (if flag then Z.min a b else Z.max a b) /\
     length inb' = length inb /\
     (forall i, i <> data0 -> i <> data1 -> rd inb' i = rd inb i)) /\
  compare_and_switch DOWN a b = (Z.min a b, Z.max a b) /\
  compare_and_switch UP a b = (Z.max a b, Z.min a b).
Proof.
  intros Hne H0 H1. split; [now apply compare_exchange_spec|].
  split; [apply compare_and_switch_DOWN|apply compare_and_switch_UP].
Qed.

Lemma compare_exchange_orders_its_operands_witness :
  (exists inb',
     compare_exchange false 2 3 [5; 6; 9; 4; 7] = Some inb' /\
     rd inb' 2 = Some (Z.min 9 4) /\
     rd inb' 3 = Some (Z.max 9 4) /\
     length inb' = length [5; 6; 9; 4; 7] /\
     (forall i, i <> 2 -> i <> 3 -> rd inb' i = rd [5; 6; 9; 4; 7] i)) /\
  compare_and_switch DOWN 9 4 = (Z.min 9 4, Z.max 9 4) /\
  compare_and_switch UP 9 4 = (Z.max 9 4, Z.min 9 4).
Proof.
  apply (compare_exchange_orders_its_operands false 2 3 9 4 [5; 6; 9; 4; 7]);
    [discriminate|reflexivity|reflexivity].
Defined.

(** C6: on two equal keys the compare-exchange leaves the key buffer as it
    was, for both values of the flag (with the flag clear the swap is
    taken, and exchanges two equal keys); so does [compare_and_switch] for
    every direction. *)
Theorem compare_exchange_equal_keys
  (flag : bool) (direction data0 data1 k : Z) (inb : list Z) :
  rd inb data0 = Some k -> rd inb data1 = Some k ->
  compare_exchange flag data0 data1 inb = Some inb /\
  compare_and_switch direction k k = (k, k).
Proof.
  intros H0 H1. split.
  - unfold compare_exchange. rewrite H0, H1. cbn [bind].
    destruct ((flag && (k <? k)) || (negb flag && (k >=? k)));
      [|reflexivity].
    rewrite (wr_same _ _ _ H0). cbn [bind]. apply wr_same. exact H1.
  - unfold compare_and_switch.
    assert (E : (k >? k) = false) by (rewrite Z.gtb_ltb; apply Z.ltb_irrefl).
    destruct (direction =? UP); destruct (direction =? DOWN);
      rewrite ?E; cbn [fst snd]; rewrite ?E; reflexivity.
Qed.

Lemma compare_exchange_equal_keys_witness :
  compare_exchange false 0 1 [7; 7; 3] = Some [7; 7; 3] /\
  compare_and_switch 0 7 7 = (7, 7).
Proof.
  apply (compare_exchange_equal_keys false 0 0 1 7 [7; 7; 3]); reflexivity.
Defined.

(** ** Bounds of the compare kernel *)

(** C3 at [N = 2]: the launch visits the two comparator positions 0 and 1
    (not [N/2 = 1]), and position 1 touches cells 2 and 3, past the two
    keys: on a two-key buffer the launch faults, and on a longer buffer it
    reorders the two cells that follow the keys. *)
Theorem compareAndSwap_touches_cells_past_N :
  comparator_positions 2 = [0; 1] /\
  compareAndSwap_cells 2 = [0; 1; 2; 3] /\
  compareAndSwap [2; 1] [false; false] 0 2 = None /\
  compareAndSwap [2; 1; 7; 9] [false; false] 0 2
    = Some ([1; 2; 9; 7], [false; true]).
Proof. repeat split; reflexivity. Qed.

(** ** The entry point *)



(** ** The launches of benyan *)

Lemma benyan_substages_spec N n stage :
  0 <= stage < 2 ^ 31 - 1 ->
  (to_uint stage <? to_uint (n - 1)) = true ->
  forall k fuel substage level,
    0 <= substage -> substage + Z.of_nat k = stage + 1 -> (k < fuel)%nat ->
    benyan_substages fuel N n stage substage level
      = Some (if (substage =? 0) && negb (Nat.eqb k 0)
              then to_int (level + 1) else level,
              stage_launches k N stage substage level).
Proof.
  intros Hs Hlast. induction k as [|k IH]; intros fuel substage level H0 Hk Hf.
  - destruct fuel as [|fuel]; [lia|]. cbn [benyan_substages stage_launches].
    destruct (substage <=? stage) eqn:E; [apply Z.leb_le in E; lia|].
    rewrite andb_false_r. reflexivity.
  - destruct fuel as [|fuel]; [lia|]. cbn [benyan_substages stage_launches].
    rewrite Hlast.
    destruct (substage <=? stage) eqn:E; [|apply Z.leb_gt in E; lia].
    rewrite (to_int_id (substage + 1)) by (rewrite two_pow_31 in *; lia).
    rewrite (IH fuel (substage + 1)) by lia.
    replace (substage + 1 =? 0) with false by (symmetry; apply Z.eqb_neq; lia).
    cbn [andb negb Nat.eqb]. rewrite andb_true_r.
    unfold substage_launches. cbn [app]. rewrite <- app_assoc. reflexivity.
Qed.

Lemma benyan_substages_last N n stage fuel level :
  0 <= stage -> (to_uint stage <? to_uint (n - 1)) = false ->
  benyan_substages (S fuel) N n stage 0 level
    = Some (level, [mkLaunch stage 0 PhaseA (CompareAndSwap level N)]).
Proof.
  intros Hs Hlast. cbn [benyan_substages]. rewrite Hlast.
  destruct (0 <=? stage) eqn:E; [reflexivity|apply Z.leb_gt in E; lia].
Qed.

Lemma benyan_stages_spec N n :
  1 <= n < 2 ^ 31 ->
  forall k fuel stage level,
    0 <= stage -> stage + Z.of_nat k = n - 1 -> (k + 1 < fuel)%nat ->
    benyan_stages fuel N n stage level
      = Some (stages_launches k N stage level).
Proof.
  intros Hn. rewrite two_pow_31 in Hn.
  induction k as [|k IH]; intros fuel stage level H0 Hk Hf.
  - destruct fuel as [|[|fuel]]; try lia. cbn [benyan_stages stages_launches].
    rewrite (to_uint_id stage) by (rewrite two_pow_32; lia).
    destruct (stage <? n) eqn:E; bool_to_prop; [|lia].
    replace (Z.to_nat stage + 2)%nat with (S (Z.to_nat stage + 1)) by lia.
    rewrite benyan_substages_last; [|lia|].
    2:{ rewrite !to_uint_id by (rewrite two_pow_32; lia).
        apply Z.ltb_ge. lia. }
    rewrite (to_int_id (stage + 1)) by (rewrite two_pow_31; lia).
    rewrite (to_uint_id (stage + 1)) by (rewrite two_pow_32; lia).
    destruct (stage + 1 <? n) eqn:E'; bool_to_prop; [lia|]. reflexivity.
  - destruct fuel as [|fuel]; [lia|]. cbn [benyan_stages stages_launches].
    rewrite (to_uint_id stage) by (rewrite two_pow_32; lia).
    destruct (stage <? n) eqn:E; bool_to_prop; [|lia].
    rewrite (benyan_substages_spec N n stage) with (k := (Z.to_nat stage + 1)%nat);
      try (rewrite ?two_pow_31; lia).
    2:{ rewrite !to_uint_id by (rewrite two_pow_32; lia).
        apply Z.ltb_lt. lia. }
    cbn [Z.eqb andb].
    replace (Nat.eqb (Z.to_nat stage + 1) 0) with false
      by (symmetry; apply Nat.eqb_neq; lia).
    cbn [negb].
    rewrite (to_int_id (stage + 1)) by (rewrite two_pow_31; lia).
    rewrite (IH fuel (stage + 1)) by lia. reflexivity.
Qed.

Lemma benyan_launches_spec N n :
  1 <= n < 2 ^ 31 ->
  benyan_launches N n = Some (stages_launches (Z.to_nat (n - 1)) N 0 0).
Proof.
  intros Hn. unfold benyan_launches. apply benyan_stages_spec; try lia.
Qed.

Lemma zrange_length a k : length (zrange a k) = k.
Proof. revert a. induction k as [|k IH]; intros a; simpl; auto. Qed.


Lemma zrange_seq a k : zrange a k = map (fun i => a + Z.of_nat i) (seq 0 k).
Proof.
  revert a. induction k as [|k IH]; intros a; simpl; [reflexivity|].
  f_equal; [lia|]. rewrite IH, <- seq_shift, map_map.
  apply map_ext. intros i. lia.
Qed.

Lemma range_zrange n : range n = zrange 0 (Z.to_nat n).
Proof. unfold range. rewrite zrange_seq. reflexivity. Qed.










(** ** Closed form of the compare kernel *)

Lemma rd_nth (l : list Z) i :
  0 <= i < Z.of_nat (length l) -> rd l i = Some (nth (Z.to_nat i) l 0).
Proof.
  intros H. rewrite rd_nth_error by lia. apply nth_error_nth'. lia.
Qed.

Lemma rd_app_at {A} (pre : list A) v rest i :
  Z.of_nat (length pre) = i -> rd (pre ++ v :: rest) i = Some v.
Proof.
  intros <-. rewrite rd_nth_error by lia. rewrite Nat2Z.id.
  rewrite nth_error_app2 by lia. now rewrite Nat.sub_diag.
Qed.

Lemma set_nth_app_at {A} (pre : list A) v w rest :
  set_nth (pre ++ v :: rest) (length pre) w = pre ++ w :: rest.
Proof. induction pre as [|h t IH]; simpl; [reflexivity|now rewrite IH]. Qed.

Lemma wr_app_at {A} (pre : list A) v w rest i :
  Z.of_nat (length pre) = i ->
  wr (pre ++ v :: rest) i w = Some (pre ++ w :: rest).
Proof.
  intros <-. rewrite wr_Some by (rewrite length_app; simpl; lia).
  rewrite Nat2Z.id. now rewrite set_nth_app_at.
Qed.

Lemma snoc_app {A} (pre : list A) a rest :
  pre ++ a :: rest = (pre ++ [a]) ++ rest.
Proof. now rewrite <- app_assoc. Qed.

Lemma ord_length flag a b : length (ord flag a b) = 2%nat.
Proof. destruct flag; reflexivity. Qed.

Lemma compare_exchange_app flag pre a b rest i :
  Z.of_nat (length pre) = i ->
  compare_exchange flag i (i + 1) (pre ++ a :: b :: rest)
    = Some (pre ++ ord flag a b ++ rest).
Proof.
  intros Hi. unfold compare_exchange.
  rewrite (rd_app_at pre a (b :: rest) i Hi). cbn [bind].
  assert (Hi1 : Z.of_nat (length (pre ++ [a])) = i + 1)
    by (rewrite length_app; simpl; lia).
  rewrite (snoc_app pre a (b :: rest)).
  rewrite (rd_app_at (pre ++ [a]) b rest (i + 1) Hi1). cbn [bind].
  destruct ((flag && (a <? b)) || (negb flag && (a >=? b))) eqn:E.
  - destruct (swap_condition _ _ _ E) as [E1 E2].
    rewrite <- (snoc_app pre a (b :: rest)).
    rewrite (wr_app_at pre a b (b :: rest) i Hi). cbn [bind].
    assert (Hi2 : Z.of_nat (length (pre ++ [b])) = i + 1)
      by (rewrite length_app; simpl; lia).
    rewrite (snoc_app pre b (b :: rest)).
    rewrite (wr_app_at (pre ++ [b]) b a rest (i + 1) Hi2).
    rewrite <- app_assoc. unfold ord.
    destruct flag; cbn [app]; rewrite E1, E2; reflexivity.
  - destruct (keep_condition _ _ _ E) as [E1 E2].
    rewrite <- app_assoc. unfold ord.
    destruct flag; cbn [app]; rewrite E1, E2; reflexivity.
Qed.

Lemma compareAndSwap_body_app level c pre a b rest dirs :
  Z.of_nat (length pre) = 2 * c -> 0 <= c -> 2 * c + 1 < 2 ^ 64 ->
  c < Z.of_nat (length dirs) ->
  compareAndSwap_body level c (pre ++ a :: b :: rest, dirs)
    = Some (pre ++ ord (comp_bool c level) a b ++ rest,
            set_nth dirs (Z.to_nat c) (comp_bool c level)).
Proof.
  intros Hpre Hc Hmax Hd. unfold compareAndSwap_body. cbn [fst snd].
  rewrite wr_Some by lia. cbn [bind].
  rewrite !to_ulong_id by lia.
  rewrite (compare_exchange_app _ pre a b rest (2 * c) Hpre). reflexivity.
Qed.


Lemma cas_pairs_length level : forall l c, length (cas_pairs level c l) = length l.
Proof.
  fix IH 1. intros [|a [|b l]] c; cbn [cas_pairs]; try reflexivity.
  rewrite length_app, ord_length, IH. reflexivity.
Qed.



(** ** Closed form of the permutation kernels *)

Lemma gather_loop f base inb :
  forall k p0 opre omid opost,
    length omid = k -> Z.of_nat (length opre) = base + p0 ->
    0 <= base -> 0 <= p0 -> base + p0 + Z.of_nat k < 2 ^ 64 ->
    (forall p, p0 <= p < p0 + Z.of_nat k ->
       0 <= f p /\ base + f p < Z.of_nat (length inb) /\
       base + f p < 2 ^ 64) ->
    for_each (zrange p0 k) (gather f base) (inb, opre ++ omid ++ opost)
      = Some (inb,
              opre
              ++ map (fun p => nth (Z.to_nat (base + f p)) inb 0) (zrange p0 k)
              ++ opost).
Proof.
  induction k as [|k IH]; intros p0 opre omid opost Hk Hpre Hb Hp Hmax Hf.
  - destruct omid; [|discriminate]. reflexivity.
  - destruct omid as [|o omid]; [discriminate|].
    cbn [zrange for_each map app]. unfold gather at 1. cbn [fst snd].
    destruct (Hf p0 ltac:(lia)) as [Hf0 [Hf1 Hf2]].
    rewrite !to_ulong_id by lia.
    rewrite rd_nth by lia. cbn [bind].
    rewrite (wr_app_at opre o _ (omid ++ opost) (base + p0) Hpre). cbn [bind].
    rewrite (snoc_app opre _ (omid ++ opost)).
    rewrite (IH (p0 + 1) (opre ++ [nth (Z.to_nat (base + f p0)) inb 0])
               omid opost); try lia.
    + rewrite <- app_assoc. reflexivity.
    + simpl in Hk. lia.
    + rewrite length_app. simpl. lia.
    + intros p Hp'. apply Hf. lia.
Qed.

Lemma copy_back_loop base outb :
  forall k p0 ipre imid ipost,
    length imid = k -> Z.of_nat (length ipre) = base + p0 ->
    0 <= base -> 0 <= p0 ->
    base + p0 + Z.of_nat k <= Z.of_nat (length outb) ->
    base + p0 + Z.of_nat k < 2 ^ 64 ->
    for_each (zrange p0 k) (copy_back base) (ipre ++ imid ++ ipost, outb)
      = Some (ipre
              ++ map (fun p => nth (Z.to_nat (base + p)) outb 0) (zrange p0 k)
              ++ ipost,
              outb).
Proof.
  induction k as [|k IH]; intros p0 ipre imid ipost Hk Hpre Hb Hp Hmax Hout.
  - destruct imid; [|discriminate]. reflexivity.
  - destruct imid as [|o imid]; [discriminate|].
    cbn [zrange for_each map app]. unfold copy_back at 1. cbn [fst snd].
    rewrite !to_ulong_id by lia.
    rewrite rd_nth by lia. cbn [bind].
    rewrite (wr_app_at ipre o _ (imid ++ ipost) (base + p0) Hpre). cbn [bind].
    rewrite (snoc_app ipre _ (imid ++ ipost)).
    rewrite (IH (p0 + 1) (ipre ++ [nth (Z.to_nat (base + p0)) outb 0])
               imid ipost); try lia.
    + rewrite <- app_assoc. reflexivity.
    + simpl in Hk. lia.
    + rewrite length_app. simpl. lia.
Qed.

Lemma nth_app_at (pre l post : list Z) i :
  (i < length l)%nat -> nth (length pre + i) (pre ++ l ++ post) 0 = nth i l 0.
Proof.
  intros H. rewrite app_nth2 by lia.
  replace (length pre + i - length pre)%nat with i by lia.
  now rewrite app_nth1 by lia.
Qed.

Lemma map_zrange_ext {A} (f g : Z -> A) k :
  forall a, (forall p, a <= p < a + Z.of_nat k -> f p = g p) ->
  map f (zrange a k) = map g (zrange a k).
Proof.
  induction k as [|k IH]; intros a H; cbn [zrange map]; [reflexivity|].
  f_equal; [apply H; lia|]. apply IH. intros p Hp. apply H. lia.
Qed.

Lemma nth_map_zrange {A} (f : Z -> A) d :
  forall k a i,
    (i < k)%nat -> nth i (map f (zrange a k)) d = f (a + Z.of_nat i).
Proof.
  induction k as [|k IH]; intros a i Hi; [lia|].
  cbn [zrange map]. destruct i as [|i].
  - cbn [nth]. f_equal. lia.
  - cbn [nth]. rewrite IH by lia. f_equal. lia.
Qed.

Lemma map_nth_zrange (l : list Z) :
  map (fun p => nth (Z.to_nat p) l 0) (zrange 0 (length l)) = l.
Proof.
  apply (nth_ext _ _ 0 0).
  - now rewrite length_map, zrange_length.
  - intros i Hi. rewrite length_map, zrange_length in Hi.
    rewrite nth_map_zrange by exact Hi. f_equal. lia.
Qed.

Lemma apply_perm_length f S chunk :
  length (apply_perm f S chunk) = Z.to_nat S.
Proof. unfold apply_perm. now rewrite length_map, range_length. Qed.

(** One block on its chunk: the chunk is replaced by its permutation, the
    rest of [in] is untouched, [out] keeps its length. *)
Lemma permute_block_closed ind_out S b ipre chunk ipost outb :
  0 <= S -> 0 <= b -> Z.of_nat (length chunk) = S ->
  Z.of_nat (length ipre) = b * S ->
  b * S + S <= Z.of_nat (length outb) ->
  b * S + S < 2 ^ 32 ->
  (forall p, 0 <= p < S -> 0 <= ind_out S p < S) ->
  exists outb',
    permute_block ind_out S b (ipre ++ chunk ++ ipost, outb)
      = Some (ipre ++ apply_perm (ind_out S) S chunk ++ ipost, outb') /\
    length outb' = length outb.
Proof.
  intros HS Hb Hc Hpre Hout H32 Hf. unfold permute_block.
  assert (H64 : 2 ^ 32 < 2 ^ 64) by reflexivity.
  assert (Hbase : to_uint (b * S) = b * S).
  { apply to_uint_id. nia. }
  rewrite Hbase. rewrite (to_ulong_id S) by (rewrite two_pow_32 in H32; rewrite two_pow_64; nia).
  rewrite range_zrange.
  set (base := b * S) in *.
  assert (Hbase0 : 0 <= base) by (subst base; nia).
  assert (Eout : exists opre omid opost,
            outb = opre ++ omid ++ opost /\
            length opre = Z.to_nat base /\ length omid = Z.to_nat S).
  { exists (firstn (Z.to_nat base) outb),
      (firstn (Z.to_nat S) (skipn (Z.to_nat base) outb)),
      (skipn (Z.to_nat S) (skipn (Z.to_nat base) outb)).
    rewrite !firstn_skipn. split; [reflexivity|].
    rewrite !firstn_length_le; [auto| |lia]. rewrite length_skipn. lia. }
  destruct Eout as [opre [omid [opost [Eout [Lopre Lomid]]]]].
  subst outb. rewrite !length_app in Hout.
  rewrite (gather_loop (ind_out S) base (ipre ++ chunk ++ ipost) (Z.to_nat S) 0
             opre omid opost); try lia.
  2:{ intros p Hp. specialize (Hf p ltac:(lia)).
      rewrite !length_app. lia. }
  cbn [bind].
  set (vals := map (fun p => nth (Z.to_nat (base + ind_out S p))
                                 (ipre ++ chunk ++ ipost) 0)
                   (zrange 0 (Z.to_nat S))).
  assert (Evals : vals = apply_perm (ind_out S) S chunk).
  { subst vals. unfold apply_perm. rewrite range_zrange.
    apply map_zrange_ext. intros p Hp. specialize (Hf p ltac:(lia)).
    replace (Z.to_nat (base + ind_out S p))
      with (length ipre + Z.to_nat (ind_out S p))%nat by lia.
    apply nth_app_at. lia. }
  assert (Lvals : length vals = Z.to_nat S)
    by (subst vals; now rewrite length_map, zrange_length).
  rewrite (copy_back_loop base (opre ++ vals ++ opost) (Z.to_nat S) 0
             ipre chunk ipost); try lia.
  2:{ rewrite !length_app, Lvals. lia. }
  exists (opre ++ vals ++ opost). split.
  - rewrite <- Evals. do 4 f_equal.
    etransitivity; [|apply (map_nth_zrange vals)]. rewrite Lvals.
    apply map_zrange_ext. intros p Hp.
    replace (Z.to_nat (base + p)) with (length opre + Z.to_nat p)%nat by lia.
    apply nth_app_at. lia.
  - rewrite !length_app. lia.
Qed.


Lemma Forall_length_concat (S : Z) (cs : list (list Z)) :
  Forall (fun ch => Z.of_nat (length ch) = S) cs ->
  Z.of_nat (length (concat cs)) = Z.of_nat (length cs) * S.
Proof.
  induction 1 as [|ch cs Hch Hcs IH]; [reflexivity|].
  cbn [concat length]. rewrite length_app. nia.
Qed.

Lemma Forall_length_map_perm f (S : Z) (cs : list (list Z)) :
  0 <= S ->
  Forall (fun ch => Z.of_nat (length ch) = S) (map (apply_perm f S) cs).
Proof.
  intros HS. apply Forall_forall. intros ch Hin.
  apply in_map_iff in Hin. destruct Hin as [c [<- _]].
  rewrite apply_perm_length. lia.
Qed.

Lemma concat_map_perm_length f (S : Z) (cs : list (list Z)) :
  0 <= S -> Forall (fun ch => Z.of_nat (length ch) = S) cs ->
  length (concat (map (apply_perm f S) cs)) = length (concat cs).
Proof.
  intros HS Hcs. apply Nat2Z.inj.
  rewrite (Forall_length_concat S (map _ _)) by now apply Forall_length_map_perm.
  rewrite (Forall_length_concat S cs) by assumption.
  now rewrite length_map.
Qed.



(** ** Interleaving and the two permutations *)




Lemma nth_apply_perm f S chunk i :
  (i < Z.to_nat S)%nat ->
  nth i (apply_perm f S chunk) 0 = nth (Z.to_nat (f (Z.of_nat i))) chunk 0.
Proof.
  intros Hi. unfold apply_perm. rewrite range_zrange.
  now rewrite nth_map_zrange by exact Hi.
Qed.




(** ** The routing of shuffleN *)

Lemma shuffleN_one_chunk S (chunk outb : list Z) :
  2 <= S <= 1073741824 -> S mod 2 = 0 ->
  Z.of_nat (length chunk) = S -> S <= Z.of_nat (length outb) ->
  exists outb',
    shuffleN 1 chunk outb S S
      = Some (apply_perm (shuffleN_ind_out S) S chunk, outb').
Proof.
  intros HS He Hc Ho. unfold shuffleN. change (range 1) with [0].
  cbn [for_each].
  destruct (permute_block_closed shuffleN_ind_out S 0 [] chunk [] outb)
    as [outb' [Hrun _]]; try (rewrite ?two_pow_32; cbn [length]; lia).
  - intros p Hp. now apply shuffleN_ind_out_range.
  - cbn [app] in Hrun. rewrite !app_nil_r in Hrun. rewrite Hrun.
    cbn [bind]. exists outb'. reflexivity.
Qed.

(** C4 (amended): for every power of two [S >= 2] and every source index
    [j] in [0, S), shuffleN routes the element at [j] to exactly one
    destination: the even position [2j] when [j] lies in the first half,
    the odd position [2(j - S/2) + 1] when it lies in the second half (a
    perfect shuffle, interleaving the two halves).  After the kernel has
    run on a chunk, that destination holds the element the source held. *)
Theorem shuffleN_interleaves_halves (k S j : Z) (chunk outb : list Z) :
  S = 2 ^ k -> 1 <= k <= 30 -> 0 <= j < S ->
  Z.of_nat (length chunk) = S -> S <= Z.of_nat (length outb) ->
  let p := if j <? S / 2 then 2 * j else 2 * (j - S / 2) + 1 in
  0 <= p < S /\
  shuffleN_ind_out S p = j /\
  (forall q, 0 <= q < S -> shuffleN_ind_out S q = j -> q = p) /\
  exists chunk' outb',
    shuffleN 1 chunk outb S S = Some (chunk', outb') /\
    nth (Z.to_nat p) chunk' 0 = nth (Z.to_nat j) chunk 0.
Proof.
  intros -> Hk Hj Hc Ho p.
  destruct (pow2_shape k Hk) as [Hr Hsh].
  assert (He : 2 ^ k mod 2 = 0).
  { destruct Hsh as [->|[q ->]]; [reflexivity|zlia]. }
  assert (Hp : 0 <= p < 2 ^ k).
  { subst p. destruct (j <? 2 ^ k / 2) eqn:E; bool_to_prop; zlia. }
  assert (Hpj : shuffleN_ind_out (2 ^ k) p = j).
  { subst p. destruct (j <? 2 ^ k / 2) eqn:E; bool_to_prop.
    - apply shuffleN_ind_out_even. lia.
    - rewrite shuffleN_ind_out_odd by zlia. lia. }
  split; [exact Hp|]. split; [exact Hpj|]. split.
  - intros q Hq Hqj. now apply shuffleN_ind_out_inv.
  - destruct (shuffleN_one_chunk (2 ^ k) chunk outb Hr He Hc Ho)
      as [outb' Hrun].
    exists (apply_perm (shuffleN_ind_out (2 ^ k)) (2 ^ k) chunk), outb'.
    split; [exact Hrun|].
    rewrite nth_apply_perm by lia. rewrite Z2Nat.id by lia.
    now rewrite Hpj.
Qed.

Lemma shuffleN_interleaves_halves_witness :
  let p := if 5 <? 8 / 2 then 2 * 5 else 2 * (5 - 8 / 2) + 1 in
  0 <= p < 8 /\
  shuffleN_ind_out 8 p = 5 /\
  (forall q, 0 <= q < 8 -> shuffleN_ind_out 8 q = 5 -> q = p) /\
  exists chunk' outb',
    shuffleN 1 [10; 11; 12; 13; 14; 15; 16; 17] (repeat 0 8%nat) 8 8
      = Some (chunk', outb') /\
    nth (Z.to_nat p) chunk' 0
      = nth (Z.to_nat 5) [10; 11; 12; 13; 14; 15; 16; 17] 0.
Proof.
  apply (shuffleN_interleaves_halves 3 8 5
           [10; 11; 12; 13; 14; 15; 16; 17] (repeat 0 8%nat));
    [reflexivity|lia|lia|reflexivity|cbn [repeat length]; lia].
Defined.

(** ** Compare launches on key lists *)










(** ** The direction bit *)

Lemma land_pow2 c level :
  0 <= level ->
  Z.land c (2 ^ level) = if Z.testbit c level then 2 ^ level else 0.
Proof.
  intros Hl. apply Z.bits_inj'. intros n Hn.
  rewrite Z.land_spec, Z.pow2_bits_eqb by lia.
  destruct (Z.eqb_spec level n) as [->|Hne].
  - destruct (Z.testbit c n) eqn:E; cbn [andb].
    + now rewrite Z.pow2_bits_true.
    + now rewrite Z.bits_0.
  - rewrite andb_false_r. destruct (Z.testbit c level).
    + rewrite Z.pow2_bits_false by lia. reflexivity.
    + now rewrite Z.bits_0.
Qed.

Lemma comp_bool_testbit c level :
  0 <= level <= 30 -> comp_bool c level = Z.testbit c level.
Proof.
  intros Hl. unfold comp_bool. rewrite Z.shiftl_1_l.
  assert (Hp : 0 < 2 ^ level <= 2 ^ 30)
    by (split; [apply pow2_pos; lia|apply pow2_le_mono; lia]).
  rewrite two_pow_30 in Hp.
  rewrite to_int_id by (rewrite two_pow_31; lia).
  rewrite to_ulong_id by (rewrite two_pow_64; lia).
  rewrite land_pow2 by lia.
  destruct (Z.testbit c level).
  - replace (2 ^ level =? 0) with false by (symmetry; apply Z.eqb_neq; lia).
    reflexivity.
  - reflexivity.
Qed.

Lemma comp_bool_odd c level :
  0 <= level <= 30 -> comp_bool c level = Z.odd (c / 2 ^ level).
Proof.
  intros Hl. rewrite comp_bool_testbit by exact Hl.
  rewrite Z.testbit_odd, Z.shiftr_div_pow2 by lia. reflexivity.
Qed.


(** ** Steps on stretches of the key array *)








(** ** The merge on one chunk *)











(** ** One level on the whole array *)







(** ** The launches of benyan are the kernels of the network *)














(** ** The merge permutes its input *)




(** ** Thresholds commute with the merge *)






(** ** The merge on zero-one lists *)






(** ** Sorted lists and their thresholds *)









(** ** The bitonic sort sorts *)



(** ** Running the launches *)




(** ** What a successful launch tells about the buffers *)

Lemma compare_exchange_Some flag data0 data1 inb inb' :
  compare_exchange flag data0 data1 inb = Some inb' ->
  data0 < Z.of_nat (length inb) /\ data1 < Z.of_nat (length inb) /\
  length inb' = length inb.
Proof.
  unfold compare_exchange.
  destruct (rd inb data0) as [a|] eqn:E0; [|discriminate].
  destruct (rd inb data1) as [b|] eqn:E1; [|discriminate]. cbn [bind].
  apply rd_Some_range in E0, E1.
  destruct ((flag && (a <? b)) || (negb flag && (a >=? b))).
  - destruct (wr inb data0 b) as [in1|] eqn:W0; [|discriminate]. cbn [bind].
    intros W1. apply wr_inv in W0, W1.
    destruct W0 as [_ ->]. destruct W1 as [_ ->].
    rewrite !set_nth_length. lia.
  - intros [= <-]. lia.
Qed.

Lemma compareAndSwap_body_Some level c s s' :
  0 <= c -> 2 * c + 1 < 2 ^ 64 ->
  compareAndSwap_body level c s = Some s' ->
  2 * c + 1 < Z.of_nat (length (fst s)) /\ c < Z.of_nat (length (snd s)) /\
  length (fst s') = length (fst s) /\ length (snd s') = length (snd s).
Proof.
  intros Hc Hmax. unfold compareAndSwap_body.
  destruct (wr (snd s) c (comp_bool c level)) as [dirs'|] eqn:W;
    [|discriminate]. cbn [bind].
  rewrite !to_ulong_id by lia.
  destruct (compare_exchange _ _ _ (fst s)) as [in'|] eqn:E; [|discriminate].
  cbn [bind]. intros [= <-]. cbn [fst snd].
  apply wr_inv in W. destruct W as [Hr ->].
  apply compare_exchange_Some in E. rewrite set_nth_length. lia.
Qed.

Lemma compareAndSwap_loop_Some level :
  forall k c s s',
    0 <= c -> 2 * (c + Z.of_nat k) < 2 ^ 64 ->
    for_each (zrange c k) (compareAndSwap_body level) s = Some s' ->
    ((0 < k)%nat ->
     2 * (c + Z.of_nat k) <= Z.of_nat (length (fst s)) /\
     c + Z.of_nat k <= Z.of_nat (length (snd s))) /\
    length (fst s') = length (fst s) /\ length (snd s') = length (snd s).
Proof.
  induction k as [|k IH]; intros c s s' Hc Hmax Hrun.
  - cbn [zrange for_each] in Hrun. inversion Hrun; subst. split; [lia|auto].
  - cbn [zrange for_each] in Hrun.
    destruct (compareAndSwap_body level c s) as [s1|] eqn:E; [|discriminate].
    cbn [bind] in Hrun.
    apply compareAndSwap_body_Some in E; [|lia|lia].
    apply IH in Hrun; [|lia|lia].
    destruct E as [E1 [E2 [E3 E4]]]. destruct Hrun as [Hb [L1 L2]].
    split; [|split; congruence].
    intros _. destruct k as [|k]; [lia|].
    specialize (Hb ltac:(lia)). rewrite E3, E4 in Hb. lia.
Qed.

Lemma compareAndSwap_Some inb dirs level N r :
  1 <= N < 2 ^ 62 ->
  compareAndSwap inb dirs level N = Some r ->
  2 * N <= Z.of_nat (length inb) /\ N <= Z.of_nat (length dirs).
Proof.
  intros HN Hrun. unfold compareAndSwap, comparator_positions in Hrun.
  rewrite range_zrange in Hrun.
  apply compareAndSwap_loop_Some in Hrun.
  - destruct Hrun as [Hb _]. cbn [fst snd] in Hb.
    specialize (Hb ltac:(lia)). lia.
  - lia.
  - change (2 ^ 64) with (4 * 2 ^ 62). lia.
Qed.

Lemma gather_Some f base p s s' :
  0 <= base + p < 2 ^ 64 ->
  gather f base p s = Some s' ->
  base + p < Z.of_nat (length (snd s)) /\
  fst s' = fst s /\ length (snd s') = length (snd s).
Proof.
  intros Hp. unfold gather.
  destruct (rd (fst s) _) as [v|]; [|discriminate]. cbn [bind].
  rewrite (to_ulong_id (base + p)) by exact Hp.
  destruct (wr (snd s) (base + p) v) as [out'|] eqn:W; [|discriminate].
  cbn [bind]. intros [= <-]. cbn [fst snd].
  apply wr_inv in W. destruct W as [Hr ->]. rewrite set_nth_length.
  repeat split; try reflexivity; lia.
Qed.

Lemma gather_loop_Some f base :
  forall k p0 s s',
    0 <= base -> 0 <= p0 -> base + p0 + Z.of_nat k < 2 ^ 64 ->
    for_each (zrange p0 k) (gather f base) s = Some s' ->
    ((0 < k)%nat -> base + p0 + Z.of_nat k <= Z.of_nat (length (snd s))) /\
    length (fst s') = length (fst s) /\ length (snd s') = length (snd s).
Proof.
  induction k as [|k IH]; intros p0 s s' Hb Hp Hmax Hrun.
  - cbn [zrange for_each] in Hrun. inversion Hrun; subst. split; [lia|auto].
  - cbn [zrange for_each] in Hrun.
    destruct (gather f base p0 s) as [s1|] eqn:E; [|discriminate].
    cbn [bind] in Hrun.
    apply gather_Some in E; [|lia].
    apply IH in Hrun; [|lia..].
    destruct E as [E1 [E2 E3]]. destruct Hrun as [Hk [L1 L2]].
    split; [|split; congruence].
    intros _. destruct k as [|k]; [lia|].
    specialize (Hk ltac:(lia)). rewrite E3 in Hk. lia.
Qed.

Lemma copy_back_loop_Some base :
  forall idx s s',
    for_each idx (copy_back base) s = Some s' ->
    length (fst s') = length (fst s) /\ length (snd s') = length (snd s).
Proof.
  induction idx as [|p idx IH]; intros s s' Hrun.
  - cbn [for_each] in Hrun. inversion Hrun; auto.
  - cbn [for_each] in Hrun.
    destruct (copy_back base p s) as [s1|] eqn:E; [|discriminate].
    cbn [bind] in Hrun. apply IH in Hrun.
    unfold copy_back in E.
    destruct (rd (snd s) _) as [v|]; [|discriminate]. cbn [bind] in E.
    destruct (wr (fst s) _ v) as [in'|] eqn:W; [|discriminate].
    cbn [bind] in E. inversion E; subst. cbn [fst snd] in Hrun.
    apply wr_inv in W. destruct W as [_ ->].
    rewrite set_nth_length in Hrun. exact Hrun.
Qed.

Lemma permute_block_Some ind_out S b s s' :
  1 <= S -> 0 <= b -> b * S + S < 2 ^ 32 ->
  permute_block ind_out S b s = Some s' ->
  b * S + S <= Z.of_nat (length (snd s)) /\
  length (fst s') = length (fst s) /\ length (snd s') = length (snd s).
Proof.
  intros HS Hb H32. unfold permute_block.
  assert (H64 : 2 ^ 32 < 2 ^ 64) by reflexivity.
  rewrite (to_uint_id (b * S)) by nia.
  rewrite (to_ulong_id S) by nia. rewrite range_zrange.
  destruct (for_each (zrange 0 (Z.to_nat S)) (gather (ind_out S) (b * S)) s)
    as [s1|] eqn:G; [|discriminate]. cbn [bind]. intros C.
  apply gather_loop_Some in G; [|nia..].
  apply copy_back_loop_Some in C.
  destruct G as [Hk [L1 L2]]. destruct C as [L3 L4].
  split; [|split; congruence].
  specialize (Hk ltac:(lia)). lia.
Qed.

Lemma permute_blocks_Some ind_out S :
  1 <= S ->
  forall k b0 s s',
    0 <= b0 -> (b0 + Z.of_nat k) * S < 2 ^ 32 ->
    for_each (zrange b0 k) (permute_block ind_out S) s = Some s' ->
    ((0 < k)%nat -> (b0 + Z.of_nat k) * S <= Z.of_nat (length (snd s))) /\
    length (fst s') = length (fst s) /\ length (snd s') = length (snd s).
Proof.
  intros HS. induction k as [|k IH]; intros b0 s s' Hb H32 Hrun.
  - cbn [zrange for_each] in Hrun. inversion Hrun; subst. split; [lia|auto].
  - cbn [zrange for_each] in Hrun.
    destruct (permute_block ind_out S b0 s) as [s1|] eqn:E; [|discriminate].
    cbn [bind] in Hrun.
    apply permute_block_Some in E; [|nia..].
    apply IH in Hrun; [|nia..].
    destruct E as [E1 [E2 E3]]. destruct Hrun as [Hk [L1 L2]].
    split; [|split; congruence].
    intros _. destruct k as [|k]; [nia|].
    specialize (Hk ltac:(lia)). rewrite E3 in Hk. nia.
Qed.


(** ** benyan on the keys *)







(** * Further properties of the code *)

(** ** getN as a padding function *)

Lemma pow2_lt_inv a b : 0 <= a -> 0 <= b -> 2 ^ a < 2 ^ b -> a < b.
Proof.
  intros Ha Hb H. destruct (Z_lt_le_dec a b) as [Hlt|Hge]; [exact Hlt|].
  assert (2 ^ b <= 2 ^ a) by (apply pow2_le_mono; lia). lia.
Qed.

(** X1: for every [size] up to [2^30], zero and negative sizes included,
    [getN] returns a value between 2 and [2^30] that is at least [size],
    less than twice [size] when [size >= 2], and equal to 2 when
    [size <= 2]. *)
Theorem getN_pads_less_than_double (size : Z) (fuel : nat) :
  size <= 2 ^ 30 -> (30 <= fuel)%nat ->
  exists r,
    getN fuel size = Some r /\
    2 <= r <= 2 ^ 30 /\ size <= r /\
    (2 <= size -> r < 2 * size) /\
    (size <= 2 -> r = 2).
Proof.
  intros Hs Hf.
  destruct (getN_loop_spec size Hs fuel 1) as [j [Hj [Hg [Hle Hm]]]];
    try lia.
  exists (2 ^ j). split; [exact Hg|].
  assert (H2 : 2 ^ 1 <= 2 ^ j) by (apply pow2_le_mono; lia).
  assert (H30 : 2 ^ j <= 2 ^ 30) by (apply pow2_le_mono; lia).
  change (2 ^ 1) with 2 in H2.
  split; [lia|]. split; [exact Hle|]. split.
  - intros Hsz. destruct Hm as [->|Hm]; [change (2 ^ 1) with 2; lia|].
    replace j with (j - 1 + 1) by lia. rewrite pow2_succ by lia. lia.
  - intros Hsz. destruct Hm as [->|Hm]; [reflexivity|].
    destruct (Z.eq_dec j 1) as [->|Hne]; [reflexivity|].
    assert (2 ^ 1 <= 2 ^ (j - 1)) by (apply pow2_le_mono; lia).
    change (2 ^ 1) with 2 in *. lia.
Qed.

Lemma getN_pads_less_than_double_witness :
  exists r,
    getN 30 (-7) = Some r /\
    2 <= r <= 2 ^ 30 /\ -7 <= r /\
    (2 <= -7 -> r < 2 * -7) /\
    (-7 <= 2 -> r = 2).
Proof.
  apply (getN_pads_less_than_double (-7) 30); [vm_compute; discriminate|lia].
Defined.

(** X2: [getN] is monotone, and it is idempotent: padding a padded size
    changes nothing. *)
Theorem getN_monotone_idempotent (size1 size2 : Z) (fuel : nat) :
  size1 <= size2 -> size2 <= 2 ^ 30 -> (30 <= fuel)%nat ->
  exists r1 r2,
    getN fuel size1 = Some r1 /\ getN fuel size2 = Some r2 /\
    r1 <= r2 /\
    getN fuel r1 = Some r1 /\ getN fuel r2 = Some r2.
Proof.
  intros H12 Hs Hf.
  assert (Hidem : forall j, 1 <= j <= 30 -> getN fuel (2 ^ j) = Some (2 ^ j)).
  { intros j Hj.
    assert (Hsj : 2 ^ j <= 2 ^ 30) by (apply pow2_le_mono; lia).
    destruct (getN_loop_spec (2 ^ j) Hsj fuel 1) as [i [Hi [Hg [Hle Hm]]]];
      try lia.
    unfold getN. change (getN_loop fuel (2 ^ j) 2)
      with (getN_loop fuel (2 ^ j) (2 ^ 1)). rewrite Hg. do 2 f_equal.
    destruct Hm as [->|Hm].
    - destruct (Z.eq_dec j 1) as [->|Hne]; [reflexivity|].
      assert (2 ^ 2 <= 2 ^ j) by (apply pow2_le_mono; lia).
      change (2 ^ 2) with 4 in *. change (2 ^ 1) with 2 in *. lia.
    - apply pow2_lt_inv in Hm; try lia.
      assert (i <= j) by lia.
      destruct (Z.eq_dec i j) as [->|Hne]; [reflexivity|].
      assert (2 ^ i <= 2 ^ (j - 1)) by (apply pow2_le_mono; lia).
      assert (2 ^ (j - 1) < 2 ^ j).
      { replace j with (j - 1 + 1) at 2 by lia. rewrite pow2_succ by lia.
        pose proof (pow2_pos (j - 1)). lia. }
      lia. }
  destruct (getN_loop_spec size1 ltac:(lia) fuel 1) as [j1 [Hj1 [Hg1 [Hle1 Hm1]]]];
    try lia.
  destruct (getN_loop_spec size2 Hs fuel 1) as [j2 [Hj2 [Hg2 [Hle2 Hm2]]]];
    try lia.
  exists (2 ^ j1), (2 ^ j2). split; [exact Hg1|]. split; [exact Hg2|].
  split; [|split; apply Hidem; lia].
  destruct Hm1 as [->|Hm1]; [apply pow2_le_mono; lia|].
  assert (2 ^ (j1 - 1) < 2 ^ j2) by lia.
  apply pow2_lt_inv in H; try lia. apply pow2_le_mono. lia.
Qed.

Lemma getN_monotone_idempotent_witness :
  exists r1 r2,
    getN 30 5 = Some r1 /\ getN 30 100 = Some r2 /\
    r1 <= r2 /\
    getN 30 r1 = Some r1 /\ getN 30 r2 = Some r2.
Proof.
  apply (getN_monotone_idempotent 5 100 30);
    [lia|vm_compute; discriminate|lia].
Defined.

(** ** The staging primitives *)

(** X3: the staging primitive [compare_and_switch] and the conditional
    swap of the [compareAndSwap] kernel agree: on a buffer of two keys
    the kernel's exchange with the flag set leaves what
    [compare_and_switch] leaves for [UP], and with the flag clear what it
    leaves for [DOWN]. *)
Theorem compare_and_switch_agrees_with_kernel (flag : bool) (a b : Z) :
  compare_exchange flag 0 1 [a; b]
    = Some [fst (compare_and_switch (if flag then UP else DOWN) a b);
            snd (compare_and_switch (if flag then UP else DOWN) a b)].
Proof.
  change [a; b] with ([] ++ a :: b :: []). change 1 with (0 + 1).
  rewrite (compare_exchange_app flag [] a b [] 0 eq_refl).
  destruct flag.
  - now rewrite compare_and_switch_UP.
  - now rewrite compare_and_switch_DOWN.
Qed.

(** X4: [compare_and_switch] with a direction that is neither [UP] nor
    [DOWN] moves nothing; for every direction the two operands come back
    as they were or exchanged, and a second application changes nothing. *)
Theorem compare_and_switch_other_directions (direction a b : Z) :
  (direction <> UP -> direction <> DOWN ->
   compare_and_switch direction a b = (a, b)) /\
  (compare_and_switch direction a b = (a, b) \/
   compare_and_switch direction a b = (b, a)) /\
  compare_and_switch direction
    (fst (compare_and_switch direction a b))
    (snd (compare_and_switch direction a b))
    = compare_and_switch direction a b.
Proof.
  unfold compare_and_switch, UP, DOWN.
  destruct (direction =? 0) eqn:E0; destruct (direction =? 1) eqn:E1;
    bool_to_prop; try lia; cbv zeta; cbn [fst snd].
  - split; [intros; lia|].
    destruct (b >? a) eqn:E; cbn [fst snd].
    + split; [now right|]. replace (a >? b) with false; [reflexivity|].
      symmetry. rewrite Z.gtb_ltb in *. bool_to_prop. apply Z.ltb_ge. lia.
    + split; [now left|]. now rewrite E.
  - split; [intros; lia|].
    destruct (a >? b) eqn:E; cbn [fst snd].
    + split; [now right|]. replace (b >? a) with false; [reflexivity|].
      symmetry. rewrite Z.gtb_ltb in *. bool_to_prop. apply Z.ltb_ge. lia.
    + split; [now left|]. now rewrite E.
  - split; [reflexivity|]. split; [now left|reflexivity].
Qed.







(** ** The contract of the compare kernel *)

(** The compare loop with the direction flags it stores written out. *)
Lemma compareAndSwap_loop_dirs level :
  forall k c pre l post dpre dmid dpost,
    length l = (2 * k)%nat -> Z.of_nat (length pre) = 2 * c -> 0 <= c ->
    2 * (c + Z.of_nat k) < 2 ^ 64 ->
    length dmid = k -> Z.of_nat (length dpre) = c ->
    for_each (zrange c k) (compareAndSwap_body level)
      (pre ++ l ++ post, dpre ++ dmid ++ dpost)
      = Some (pre ++ cas_pairs level c l ++ post,
              dpre ++ map (fun i => comp_bool i level) (zrange c k) ++ dpost).
Proof.
  induction k as [|k IH]; intros c pre l post dpre dmid dpost
    Hl Hpre Hc Hmax Hdm Hdp.
  - destruct l; [|discriminate]. destruct dmid; [|discriminate]. reflexivity.
  - destruct l as [|a [|b l]]; try (simpl in Hl; lia).
    destruct dmid as [|f dmid]; [discriminate|].
    cbn [zrange for_each app cas_pairs map].
    rewrite compareAndSwap_body_app; try lia.
    2:{ rewrite !length_app. cbn [length]. lia. }
    cbn [bind].
    replace (Z.to_nat c) with (length dpre) by lia.
    rewrite set_nth_app_at.
    rewrite (app_assoc pre), (snoc_app dpre).
    rewrite (IH (c + 1) (pre ++ ord (comp_bool c level) a b) l post
               (dpre ++ [comp_bool c level]) dmid dpost).
    + rewrite <- !app_assoc. reflexivity.
    + simpl in Hl. lia.
    + rewrite length_app, ord_length. lia.
    + lia.
    + lia.
    + simpl in Hdm. lia.
    + rewrite length_app. simpl. lia.
Qed.

Lemma ord_Permutation flag a b : Permutation [a; b] (ord flag a b).
Proof.
  unfold ord. destruct (Z_le_gt_dec a b) as [H|H].
  - rewrite Z.max_r, Z.min_l by lia.
    destruct flag; [apply perm_swap|apply Permutation_refl].
  - rewrite Z.max_l, Z.min_r by lia.
    destruct flag; [apply Permutation_refl|apply perm_swap].
Qed.

Lemma cas_pairs_Permutation level :
  forall l c, Permutation l (cas_pairs level c l).
Proof.
  fix IH 1. intros [|a [|b l]] c; cbn [cas_pairs]; try apply Permutation_refl.
  change (a :: b :: l) with ([a; b] ++ l).
  apply Permutation_app; [apply ord_Permutation|apply IH].
Qed.

Lemma nth_cas_pairs level :
  forall k l c0 c,
    length l = (2 * k)%nat -> (c < k)%nat ->
    nth (2 * c) (cas_pairs level c0 l) 0
      = (if comp_bool (c0 + Z.of_nat c) level
         then Z.max (nth (2 * c) l 0) (nth (2 * c + 1) l 0)
         else Z.min (nth (2 * c) l 0) (nth (2 * c + 1) l 0)) /\
    nth (2 * c + 1) (cas_pairs level c0 l) 0
      = (if comp_bool (c0 + Z.of_nat c) level
         then Z.min (nth (2 * c) l 0) (nth (2 * c + 1) l 0)
         else Z.max (nth (2 * c) l 0) (nth (2 * c + 1) l 0)).
Proof.
  induction k as [|k IH]; intros l c0 c Hl Hc; [lia|].
  destruct l as [|a [|b l]]; try (simpl in Hl; lia).
  cbn [cas_pairs]. destruct c as [|c].
  - rewrite Z.add_0_r. cbn [Nat.mul Nat.add nth].
    unfold ord. destruct (comp_bool c0 level); cbn [app nth]; auto.
  - replace (2 * S c)%nat with (S (S (2 * c))) by lia.
    replace (S (S (2 * c)) + 1)%nat with (S (S (2 * c + 1))) by lia.
    assert (E : forall i, nth (S (S i)) (ord (comp_bool c0 level) a b
                                         ++ cas_pairs level (c0 + 1) l) 0
                          = nth i (cas_pairs level (c0 + 1) l) 0).
    { intros i. unfold ord. destruct (comp_bool c0 level); reflexivity. }
    rewrite !E. cbn [nth].
    replace (c0 + Z.of_nat (S c)) with (c0 + 1 + Z.of_nat c) by lia.
    apply IH; [simpl in Hl; lia|lia].
Qed.

(** A buffer with room for [n] cells splits into these cells and the
    rest. *)
Lemma split_prefix {A} (l : list A) n :
  (n <= length l)%nat ->
  exists l1 l2, l = l1 ++ l2 /\ length l1 = n.
Proof.
  intros H. exists (firstn n l), (skipn n l). split.
  - now rewrite firstn_skipn.
  - apply firstn_length_le. exact H.
Qed.

Lemma compareAndSwap_split level N l post dmid dpost :
  0 <= N < 2 ^ 62 ->
  length l = (2 * Z.to_nat N)%nat -> length dmid = Z.to_nat N ->
  compareAndSwap (l ++ post) (dmid ++ dpost) level N
    = Some (cas_pairs level 0 l ++ post,
            map (fun i => comp_bool i level) (range N) ++ dpost).
Proof.
  intros HN Hl Hd. unfold compareAndSwap, comparator_positions.
  rewrite range_zrange.
  apply (compareAndSwap_loop_dirs level (Z.to_nat N) 0 [] l post [] dmid dpost);
    try reflexivity; lia.
Qed.

(** X6: a compare launch over [N] comparators returns exactly when the
    key buffer has at least [2N] cells and the direction buffer at least
    [N]: the kernel reads and writes the key cells [0 .. 2N-1]. *)
Theorem compareAndSwap_returns_iff
  (inb : list Z) (directions : list bool) (level N : Z) :
  1 <= N < 2 ^ 62 ->
  (exists r, compareAndSwap inb directions level N = Some r) <->
  (2 * N <= Z.of_nat (length inb) /\ N <= Z.of_nat (length directions)).
Proof.
  intros HN. split.
  - intros [r Hr]. now apply (compareAndSwap_Some inb directions level N r).
  - intros [Hi Hd].
    destruct (split_prefix inb (2 * Z.to_nat N)) as [l [post [-> Hl]]]; [lia|].
    destruct (split_prefix directions (Z.to_nat N)) as [dm [dp [-> Hdm]]];
      [lia|].
    eexists. apply compareAndSwap_split; [lia|exact Hl|exact Hdm].
Qed.

Lemma compareAndSwap_returns_iff_witness :
  (exists r, compareAndSwap [3; 1; 4; 1] [true; true] 0 2 = Some r) <->
  (2 * 2 <= Z.of_nat (length [3; 1; 4; 1]) /\
   2 <= Z.of_nat (length [true; true])).
Proof.
  apply (compareAndSwap_returns_iff [3; 1; 4; 1] [true; true] 0 2).
  vm_compute. split; congruence.
Defined.

(** What a compare launch leaves in buffers with room for it. *)
Lemma compareAndSwap_result
  (inb : list Z) (directions : list bool) (level N : Z) :
  0 <= N < 2 ^ 62 ->
  2 * N <= Z.of_nat (length inb) -> N <= Z.of_nat (length directions) ->
  exists inb' directions',
    compareAndSwap inb directions level N = Some (inb', directions') /\
    length inb' = length inb /\ length directions' = length directions /\
    Permutation inb inb' /\
    (forall c, 0 <= c < N ->
       let a := nth (Z.to_nat (2 * c)) inb 0 in
       let b := nth (Z.to_nat (2 * c + 1)) inb 0 in
       nth (Z.to_nat (2 * c)) inb' 0
         = (if comp_bool c level then Z.max a b else Z.min a b) /\
       nth (Z.to_nat (2 * c + 1)) inb' 0
         = (if comp_bool c level then Z.min a b else Z.max a b) /\
       nth (Z.to_nat c) directions' false = comp_bool c level) /\
    (forall i, 2 * N <= i ->
       nth (Z.to_nat i) inb' 0 = nth (Z.to_nat i) inb 0) /\
    (forall i, N <= i ->
       nth (Z.to_nat i) directions' false = nth (Z.to_nat i) directions false).
Proof.
  intros HN Hi Hd.
  destruct (split_prefix inb (2 * Z.to_nat N)) as [l [post [-> Hl]]]; [lia|].
  destruct (split_prefix directions (Z.to_nat N)) as [dm [dp [-> Hdm]]];
    [lia|].
  eexists. eexists. split; [apply compareAndSwap_split; assumption|].
  assert (Lc : length (cas_pairs level 0 l) = length l)
    by apply cas_pairs_length.
  assert (Lm : length (map (fun i => comp_bool i level) (range N))
               = length dm)
    by (rewrite length_map, range_length; lia).
  split; [rewrite !length_app; lia|]. split; [rewrite !length_app; lia|].
  split; [apply Permutation_app_tail, cas_pairs_Permutation|].
  split; [|split].
  - intros c Hc. cbv zeta.
    destruct (nth_cas_pairs level (Z.to_nat N) l 0 (Z.to_nat c) Hl ltac:(lia))
      as [E0 E1].
    replace (Z.to_nat (2 * c)) with (2 * Z.to_nat c)%nat by lia.
    replace (Z.to_nat (2 * c + 1)) with (2 * Z.to_nat c + 1)%nat by lia.
    rewrite !app_nth1 by lia.
    rewrite E0, E1. replace (0 + Z.of_nat (Z.to_nat c)) with c by lia.
    split; [reflexivity|]. split; [reflexivity|].
    rewrite range_zrange, nth_map_zrange by lia. f_equal. lia.
  - intros i Hi2. rewrite !app_nth2 by lia. f_equal. lia.
  - intros i Hi2. rewrite !app_nth2 by lia. f_equal. lia.
Qed.

(** X7: the result of a compare launch over [N] comparators.  The key
    buffer is permuted; comparator [c] leaves the keys of cells [2c] and
    [2c+1] in these two cells, the larger first when its flag is set and
    the smaller first otherwise, and stores the flag in [directions[c]];
    the key cells from [2N] on and the direction cells from [N] on are
    not touched. *)
Theorem compareAndSwap_contract
  (inb : list Z) (directions : list bool) (level N : Z) :
  0 <= N < 2 ^ 62 ->
  2 * N <= Z.of_nat (length inb) -> N <= Z.of_nat (length directions) ->
  exists inb' directions',
    compareAndSwap inb directions level N = Some (inb', directions') /\
    length inb' = length inb /\ length directions' = length directions /\
    Permutation inb inb' /\
    (forall c, 0 <= c < N ->
       let a := nth (Z.to_nat (2 * c)) inb 0 in
       let b := nth (Z.to_nat (2 * c + 1)) inb 0 in
       nth (Z.to_nat (2 * c)) inb' 0
         = (if comp_bool c level then Z.max a b else Z.min a b) /\
       nth (Z.to_nat (2 * c + 1)) inb' 0
         = (if comp_bool c level then Z.min a b else Z.max a b) /\
       nth (Z.to_nat c) directions' false = comp_bool c level) /\
    (forall i, 2 * N <= i ->
       nth (Z.to_nat i) inb' 0 = nth (Z.to_nat i) inb 0) /\
    (forall i, N <= i ->
       nth (Z.to_nat i) directions' false = nth (Z.to_nat i) directions false).
Proof. apply compareAndSwap_result. Qed.

Lemma compareAndSwap_contract_witness :
  exists inb' directions',
    compareAndSwap [3; 1; 4; 1; 7] [true; true; true] 0 2
      = Some (inb', directions') /\
    length inb' = length [3; 1; 4; 1; 7] /\
    length directions' = length [true; true; true] /\
    Permutation [3; 1; 4; 1; 7] inb' /\
    (forall c, 0 <= c < 2 ->
       let a := nth (Z.to_nat (2 * c)) [3; 1; 4; 1; 7] 0 in
       let b := nth (Z.to_nat (2 * c + 1)) [3; 1; 4; 1; 7] 0 in
       nth (Z.to_nat (2 * c)) inb' 0
         = (if comp_bool c 0 then Z.max a b else Z.min a b) /\
       nth (Z.to_nat (2 * c + 1)) inb' 0
         = (if comp_bool c 0 then Z.min a b else Z.max a b) /\
       nth (Z.to_nat c) directions' false = comp_bool c 0) /\
    (forall i, 2 * 2 <= i ->
       nth (Z.to_nat i) inb' 0 = nth (Z.to_nat i) [3; 1; 4; 1; 7] 0) /\
    (forall i, 2 <= i ->
       nth (Z.to_nat i) directions' false
         = nth (Z.to_nat i) [true; true; true] false).
Proof.
  apply (compareAndSwap_contract [3; 1; 4; 1; 7] [true; true; true] 0 2);
    [vm_compute; split; congruence|simpl; lia|simpl; lia].
Defined.

(** ** Repeating and reordering the comparators of a launch *)

Lemma ord_ord flag a b :
  forall x y, ord flag a b = [x; y] -> ord flag x y = [x; y].
Proof.
  intros x y. unfold ord. destruct flag; intros [= <- <-]; f_equal; try lia;
    f_equal; lia.
Qed.

Lemma cas_pairs_idem level :
  forall l c, cas_pairs level c (cas_pairs level c l) = cas_pairs level c l.
Proof.
  fix IH 1. intros [|a [|b l]] c; cbn [cas_pairs]; try reflexivity.
  assert (E : exists x y, ord (comp_bool c level) a b = [x; y])
    by (unfold ord; destruct (comp_bool c level); eauto).
  destruct E as [x [y E]]. rewrite E. cbn [app cas_pairs].
  rewrite (ord_ord _ _ _ _ _ E), IH. reflexivity.
Qed.

(** X8: a compare launch is idempotent: a second launch with the same
    level on the buffers the first one left changes neither the keys nor
    the direction flags. *)
Theorem compareAndSwap_idempotent
  (inb : list Z) (directions : list bool) (level N : Z)
  (r : list Z * list bool) :
  0 <= N < 2 ^ 62 ->
  compareAndSwap inb directions level N = Some r ->
  compareAndSwap (fst r) (snd r) level N = Some r.
Proof.
  intros HN Hr. destruct (Z.eq_dec N 0) as [->|Hne].
  - cbn in Hr. injection Hr as <-. reflexivity.
  - destruct (compareAndSwap_Some inb directions level N r ltac:(lia) Hr)
      as [Hi Hd].
    destruct (split_prefix inb (2 * Z.to_nat N)) as [l [post [-> Hl]]]; [lia|].
    destruct (split_prefix directions (Z.to_nat N)) as [dm [dp [-> Hdm]]];
      [lia|].
    rewrite compareAndSwap_split in Hr by assumption.
    injection Hr as <-. cbn [fst snd].
    rewrite compareAndSwap_split.
    + now rewrite cas_pairs_idem.
    + exact HN.
    + now rewrite cas_pairs_length.
    + rewrite length_map, range_length. reflexivity.
Qed.

Lemma compareAndSwap_idempotent_witness :
  compareAndSwap (fst ([1; 3; 4; 1], [false; true]))
    (snd ([1; 3; 4; 1], [false; true])) 0 2
  = Some ([1; 3; 4; 1], [false; true]).
Proof.
  apply (compareAndSwap_idempotent [3; 1; 4; 1] [true; true] 0 2);
    [vm_compute; split; congruence|reflexivity].
Defined.

Lemma bind_assoc {A B C} (m : option A) (f : A -> option B)
  (g : B -> option C) :
  (b <- (a <- m ;; f a) ;; g b) = (a <- m ;; b <- f a ;; g b).
Proof. destruct m; reflexivity. Qed.

(** Bodies that commute pairwise can be run in any order. *)
Lemma for_each_Permutation {S : Type} (body : Z -> S -> option S)
  (P : Z -> Prop) :
  (forall i j s, P i -> P j -> i <> j ->
     (s1 <- body i s ;; body j s1) = (s2 <- body j s ;; body i s2)) ->
  forall l l', Permutation l l' -> NoDup l -> Forall P l ->
    forall s, for_each l body s = for_each l' body s.
Proof.
  intros Hcomm l l' Hp. induction Hp as [|x l l' Hp IH|x y l|l l' l'' H1 IH1 H2 IH2];
    intros Hnd HP s.
  - reflexivity.
  - cbn [for_each]. inversion Hnd; inversion HP; subst.
    destruct (body x s); cbn [bind]; [now apply IH|reflexivity].
  - cbn [for_each]. rewrite <- !bind_assoc.
    inversion Hnd as [|? ? Hy _]; inversion HP as [|? ? Py HP']; subst.
    inversion HP' as [|? ? Px _]; subst.
    rewrite (Hcomm y x s Py Px); [reflexivity|].
    intros ->. apply Hy. now left.
  - rewrite IH1 by assumption. apply IH2.
    + exact (Permutation_NoDup H1 Hnd).
    + exact (Permutation_Forall H1 HP).
Qed.

Lemma set_nth_comm {A} (l : list A) i j v w :
  i <> j -> set_nth (set_nth l i v) j w = set_nth (set_nth l j w) i v.
Proof.
  revert i j. induction l as [|h t IH]; intros [|i] [|j] H; simpl;
    try reflexivity; try congruence. f_equal. apply IH. congruence.
Qed.

Lemma rd_None {A} (l : list A) i :
  Z.of_nat (length l) <= i -> rd l i = None.
Proof.
  intros H. rewrite rd_nth_error by lia. apply nth_error_None. lia.
Qed.

Lemma rd_ext {A} (l l' : list A) :
  (forall i, rd l i = rd l' i) -> l = l'.
Proof.
  revert l'. induction l as [|h t IH]; intros [|h' t'] H.
  - reflexivity.
  - specialize (H 0). discriminate H.
  - specialize (H 0). discriminate H.
  - pose proof (H 0) as H0. cbn in H0. injection H0 as ->. f_equal.
    apply IH. intros i. destruct (Z_lt_le_dec i 0) as [Hn|Hp].
    + unfold rd. now replace (i <? 0) with true by (symmetry; apply Z.ltb_lt; lia).
    + specialize (H (i + 1)). rewrite !rd_nth_error in * by lia.
      replace (Z.to_nat (i + 1)) with (S (Z.to_nat i)) in H by lia.
      exact H.
Qed.

(** One comparator, by cases: inside the buffers it stores its flag and
    orders its two cells, outside it faults. *)
Lemma compareAndSwap_body_cases level c inb dirs :
  0 <= c < 2 ^ 62 ->
  (c < Z.of_nat (length dirs) /\ 2 * c + 1 < Z.of_nat (length inb) /\
   exists inb',
     compareAndSwap_body level c (inb, dirs)
       = Some (inb', set_nth dirs (Z.to_nat c) (comp_bool c level)) /\
     length inb' = length inb /\
     (forall a b, rd inb (2 * c) = Some a -> rd inb (2 * c + 1) = Some b ->
        rd inb' (2 * c)
          = Some (if comp_bool c level then Z.max a b else Z.min a b) /\
        rd inb' (2 * c + 1)
          = Some (if comp_bool c level then Z.min a b else Z.max a b)) /\
     (forall i, i <> 2 * c -> i <> 2 * c + 1 -> rd inb' i = rd inb i)) \/
  ((Z.of_nat (length dirs) <= c \/ Z.of_nat (length inb) <= 2 * c + 1) /\
   compareAndSwap_body level c (inb, dirs) = None).
Proof.
  intros Hc. unfold compareAndSwap_body. cbn [fst snd].
  change (2 ^ 62) with 4611686018427387904 in Hc.
  rewrite !to_ulong_id by (rewrite two_pow_64; lia).
  destruct (Z_lt_le_dec c (Z.of_nat (length dirs))) as [Hd|Hd].
  - rewrite wr_Some by lia. cbn [bind].
    destruct (Z_lt_le_dec (2 * c + 1) (Z.of_nat (length inb))) as [Hi|Hi].
    + left. split; [exact Hd|]. split; [exact Hi|].
      destruct (compare_exchange_spec (comp_bool c level) (2 * c) (2 * c + 1)
                  (nth (Z.to_nat (2 * c)) inb 0)
                  (nth (Z.to_nat (2 * c + 1)) inb 0) inb)
        as [inb' [Hrun [H0 [H1 [Hl Hf]]]]];
        [lia|apply rd_nth; lia|apply rd_nth; lia|].
      exists inb'. rewrite Hrun. cbn [bind]. split; [reflexivity|].
      split; [exact Hl|]. split; [|exact Hf].
      intros a b Ha Hb. rewrite rd_nth in Ha, Hb by lia.
      injection Ha as <-. injection Hb as <-. auto.
    + right. split; [now right|]. unfold compare_exchange.
      destruct (rd inb (2 * c)); cbn [bind]; [|reflexivity].
      now rewrite rd_None by lia.
  - right. split; [now left|]. unfold wr.
    replace (c <? Z.of_nat (length dirs)) with false
      by (symmetry; apply Z.ltb_ge; lia).
    now rewrite andb_false_r.
Qed.

Lemma compareAndSwap_body_commute level i j s :
  0 <= i < 2 ^ 62 -> 0 <= j < 2 ^ 62 -> i <> j ->
  (s1 <- compareAndSwap_body level i s ;; compareAndSwap_body level j s1)
  = (s2 <- compareAndSwap_body level j s ;; compareAndSwap_body level i s2).
Proof.
  intros Hi Hj Hne. destruct s as [inb dirs].
  destruct (compareAndSwap_body_cases level i inb dirs Hi)
    as [[Di [Ii [ini [Ri [Li [Vi Fi]]]]]]|[Bi Ri]];
  destruct (compareAndSwap_body_cases level j inb dirs Hj)
    as [[Dj [Ij [inj [Rj [Lj [Vj Fj]]]]]]|[Bj Rj]];
  rewrite Ri, Rj; cbn [bind].
  - destruct (compareAndSwap_body_cases level j ini
                (set_nth dirs (Z.to_nat i) (comp_bool i level)) Hj)
      as [[_ [_ [inij [Rij [Lij [Vij Fij]]]]]]|[Bij _]];
      [|rewrite set_nth_length in Bij; lia].
    destruct (compareAndSwap_body_cases level i inj
                (set_nth dirs (Z.to_nat j) (comp_bool j level)) Hi)
      as [[_ [_ [inji [Rji [Lji [Vji Fji]]]]]]|[Bji _]];
      [|rewrite set_nth_length in Bji; lia].
    rewrite Rij, Rji. f_equal. f_equal.
    + apply rd_ext. intros k.
      assert (Ai : rd inb (2 * i) = Some (nth (Z.to_nat (2 * i)) inb 0))
        by (apply rd_nth; lia).
      assert (Bi : rd inb (2 * i + 1) = Some (nth (Z.to_nat (2 * i + 1)) inb 0))
        by (apply rd_nth; lia).
      assert (Aj : rd inb (2 * j) = Some (nth (Z.to_nat (2 * j)) inb 0))
        by (apply rd_nth; lia).
      assert (Bj : rd inb (2 * j + 1) = Some (nth (Z.to_nat (2 * j + 1)) inb 0))
        by (apply rd_nth; lia).
      destruct (Vi _ _ Ai Bi) as [Vi0 Vi1].
      destruct (Vj _ _ Aj Bj) as [Vj0 Vj1].
      destruct (Vij _ _ (eq_trans (Fi (2 * j) ltac:(lia) ltac:(lia)) Aj)
                        (eq_trans (Fi (2 * j + 1) ltac:(lia) ltac:(lia)) Bj))
        as [Vij0 Vij1].
      destruct (Vji _ _ (eq_trans (Fj (2 * i) ltac:(lia) ltac:(lia)) Ai)
                        (eq_trans (Fj (2 * i + 1) ltac:(lia) ltac:(lia)) Bi))
        as [Vji0 Vji1].
      destruct (Z.eq_dec k (2 * i)) as [->|K1].
      { rewrite Fij by lia. congruence. }
      destruct (Z.eq_dec k (2 * i + 1)) as [->|K2].
      { rewrite Fij by lia. congruence. }
      rewrite (Fji k) by lia.
      destruct (Z.eq_dec k (2 * j)) as [->|K3]; [congruence|].
      destruct (Z.eq_dec k (2 * j + 1)) as [->|K4]; [congruence|].
      rewrite Fij, Fi, Fj by lia. reflexivity.
    + apply set_nth_comm. lia.
  - destruct (compareAndSwap_body_cases level j ini
                (set_nth dirs (Z.to_nat i) (comp_bool i level)) Hj)
      as [[Dij [Iij _]]|[_ Rij]]; [rewrite set_nth_length in Dij; lia|].
    exact Rij.
  - destruct (compareAndSwap_body_cases level i inj
                (set_nth dirs (Z.to_nat j) (comp_bool j level)) Hi)
      as [[Dji [Iji _]]|[_ Rji]]; [rewrite set_nth_length in Dji; lia|].
    symmetry. exact Rji.
  - reflexivity.
Qed.

(** X9: the comparators of a launch can be processed in any order: the
    loop body run over any arrangement of the positions [0 .. N-1] gives
    what the launch gives, a fault included. *)
Theorem compareAndSwap_order_independent
  (inb : list Z) (directions : list bool) (level N : Z) (order : list Z) :
  0 <= N <= 2 ^ 62 ->
  Permutation order (comparator_positions N) ->
  for_each order (compareAndSwap_body level) (inb, directions)
    = compareAndSwap inb directions level N.
Proof.
  intros HN Hp. unfold compareAndSwap. symmetry.
  apply (for_each_Permutation (compareAndSwap_body level)
           (fun c => 0 <= c < 2 ^ 62)).
  - intros i j s Pi Pj. now apply compareAndSwap_body_commute.
  - now apply Permutation_sym.
  - apply range_NoDup.
  - apply Forall_forall. intros c Hc. apply in_range in Hc. lia.
Qed.

Lemma compareAndSwap_order_independent_witness :
  for_each [1; 0] (compareAndSwap_body 0) ([3; 1; 4; 1], [true; true])
    = compareAndSwap [3; 1; 4; 1] [true; true] 0 2.
Proof.
  apply (compareAndSwap_order_independent [3; 1; 4; 1] [true; true] 0 2 [1; 0]);
    [vm_compute; split; congruence|exact (perm_swap 0 1 [])].
Defined.

(** ** The threads of a launch *)

Lemma range_succ n :
  0 <= n -> range (n + 1) = 0 :: map (fun k => k + 1) (range n).
Proof.
  intros Hn. unfold range.
  replace (Z.to_nat (n + 1)) with (S (Z.to_nat n)) by lia.
  cbn [seq map]. f_equal. rewrite <- seq_shift, !map_map.
  apply map_ext. intros i. lia.
Qed.

Lemma range_nonpos n : n <= 0 -> range n = [].
Proof. intros Hn. unfold range. now replace (Z.to_nat n) with 0%nat by lia. Qed.

(** The positions of one stride loop: [i], [i + stride], ... below
    [bound]. *)
Lemma stride_loop_closed stride bound :
  0 < stride -> bound + stride <= 2 ^ 64 ->
  forall fuel i,
    0 <= i -> (Z.to_nat (bound - i) < fuel)%nat ->
    stride_loop fuel i stride bound
      = Some (map (fun k => i + k * stride)
                  (range ((bound - i + stride - 1) / stride))).
Proof.
  intros Hs Hmax. induction fuel as [|fuel IH]; intros i Hi Hf; [lia|].
  cbn [stride_loop]. destruct (i <? bound) eqn:E; bool_to_prop.
  - rewrite to_ulong_id by lia.
    rewrite IH by lia. cbn [bind]. f_equal.
    replace ((bound - i + stride - 1) / stride)
      with ((bound - (i + stride) + stride - 1) / stride + 1).
    2:{ rewrite <- (Z.div_add _ 1) by lia. f_equal. lia. }
    rewrite range_succ.
    2:{ apply Z.div_pos; lia. }
    cbn [map]. f_equal; [lia|]. rewrite map_map. apply map_ext.
    intros k. lia.
  - rewrite range_nonpos; [reflexivity|].
    assert ((bound - i + stride - 1) / stride < 1)
      by (apply Z.div_lt_upper_bound; lia).
    lia.
Qed.

Lemma in_stride_positions M N s x :
  0 < M -> 0 <= s < M ->
  In x (map (fun k => s + k * M) (range ((N - s + M - 1) / M)))
  <-> 0 <= x < N /\ x mod M = s.
Proof.
  intros HM Hs. rewrite in_map_iff. split.
  - intros [k [<- Hk]]. apply in_range in Hk.
    pose proof (Z.mul_div_le (N - s + M - 1) M HM) as Hle.
    split; [nia|]. rewrite Z.mod_add by lia. apply Z.mod_small. lia.
  - intros [Hx Hm]. exists (x / M).
    pose proof (Z.div_mod x M ltac:(lia)) as Hd.
    split; [lia|]. apply in_range. split; [apply Z.div_pos; lia|].
    assert (x / M + 1 <= (N - s + M - 1) / M); [|lia].
    apply Z.div_le_lower_bound; lia.
Qed.

Lemma stride_positions_NoDup M c s :
  0 < M -> NoDup (map (fun k => s + k * M) (range c)).
Proof.
  intros HM. apply Finite.Injective_map_NoDup_in; [|apply range_NoDup].
  intros a b _ _ H. nia.
Qed.

Lemma NoDup_flat_map {A} (f : Z -> list A) (idx : list Z) :
  NoDup idx -> (forall a, In a idx -> NoDup (f a)) ->
  (forall a b x, In a idx -> In b idx -> In x (f a) -> In x (f b) -> a = b) ->
  NoDup (flat_map f idx).
Proof.
  induction idx as [|a idx IH]; intros Hnd Hf Hdis; cbn [flat_map].
  - constructor.
  - inversion Hnd as [|? ? Ha Hnd']; subst. apply NoDup_app.
    + apply Hf. now left.
    + apply IH; [exact Hnd'| |].
      * intros b Hb. apply Hf. now right.
      * intros b c x Hb Hc. apply Hdis; now right.
    + intros x Hx Hx'. apply in_flat_map in Hx'. destruct Hx' as [b [Hb Hxb]].
      assert (a = b) by (apply (Hdis a b x); [now left|now right|assumption..]).
      subst b. contradiction.
Qed.

Lemma collect_map_Some (g : Z -> option (list Z)) (h : Z -> list Z) idx :
  (forall i, In i idx -> g i = Some (h i)) ->
  collect (map g idx) = Some (flat_map h idx).
Proof.
  induction idx as [|i idx IH]; intros H; [reflexivity|].
  cbn [map collect flat_map]. rewrite (H i) by now left. cbn [bind].
  rewrite IH by (intros j Hj; apply H; now right). reflexivity.
Qed.

(** The stride loops started at [0 .. M-1] with stride [M] visit every
    position below [N] exactly once. *)
Lemma stride_positions_Permutation M N :
  0 < M -> 0 <= N ->
  Permutation
    (flat_map (fun s => map (fun k => s + k * M)
                            (range ((N - s + M - 1) / M)))
              (range M))
    (range N).
Proof.
  intros HM HN. apply NoDup_Permutation.
  - apply NoDup_flat_map.
    + apply range_NoDup.
    + intros s _. now apply stride_positions_NoDup.
    + intros a b x Ha Hb Hxa Hxb. apply in_range in Ha, Hb.
      apply in_stride_positions in Hxa, Hxb; try lia.
  - apply range_NoDup.
  - intros x. rewrite in_flat_map, in_range. split.
    + intros [s [Hs Hx]]. apply in_range in Hs.
      apply in_stride_positions in Hx; lia.
    + intros Hx. exists (x mod M).
      assert (0 <= x mod M < M) by (apply Z.mod_pos_bound; lia).
      split; [now apply in_range|]. apply in_stride_positions; lia.
Qed.

(** The threads of a launch of [G] blocks of [B] threads, with stride
    [B*G], visit every position below [N] exactly once. *)
Lemma launch_positions_Permutation G B N :
  0 < G -> 0 < B -> 0 <= N ->
  Permutation
    (flat_map
       (fun b =>
          flat_map
            (fun t => map (fun k => (B * b + t) + k * (B * G))
                          (range ((N - (B * b + t) + B * G - 1) / (B * G))))
            (range B))
       (range G))
    (range N).
Proof.
  intros HG HB HN. assert (HM : 0 < B * G) by nia.
  assert (Hst : forall b t, 0 <= b < G -> 0 <= t < B -> 0 <= B * b + t < B * G)
    by (intros; nia).
  apply NoDup_Permutation.
  - apply NoDup_flat_map.
    + apply range_NoDup.
    + intros b Hb. apply in_range in Hb. apply NoDup_flat_map.
      * apply range_NoDup.
      * intros t _. now apply stride_positions_NoDup.
      * intros t t' x Ht Ht' Hx Hx'. apply in_range in Ht, Ht'.
        apply in_stride_positions in Hx, Hx'; auto. lia.
    + intros b b' x Hb Hb' Hx Hx'. apply in_range in Hb, Hb'.
      apply in_flat_map in Hx, Hx'.
      destruct Hx as [t [Ht Hx]]. destruct Hx' as [t' [Ht' Hx']].
      apply in_range in Ht, Ht'.
      apply in_stride_positions in Hx, Hx'; auto. nia.
  - apply range_NoDup.
  - intros x. rewrite in_flat_map, in_range. split.
    + intros [b [Hb Hx]]. apply in_range in Hb. apply in_flat_map in Hx.
      destruct Hx as [t [Ht Hx]]. apply in_range in Ht.
      apply in_stride_positions in Hx; auto. lia.
    + intros Hx.
      assert (Hm : 0 <= x mod (B * G) < B * G) by (apply Z.mod_pos_bound; lia).
      pose proof (Z.div_mod (x mod (B * G)) B ltac:(lia)) as Hd.
      assert (Ht : 0 <= (x mod (B * G)) mod B < B)
        by (apply Z.mod_pos_bound; lia).
      assert (Hb : 0 <= x mod (B * G) / B < G).
      { split; [apply Z.div_pos; lia|]. apply Z.div_lt_upper_bound; lia. }
      exists (x mod (B * G) / B). split; [now apply in_range|].
      apply in_flat_map. exists ((x mod (B * G)) mod B).
      split; [now apply in_range|].
      apply in_stride_positions; [exact HM|now apply Hst|].
      split; [exact Hx|exact Hd].
Qed.

(** X10: the grid-stride loop of [compareAndSwap] covers the comparator
    positions: for a launch of [gridDim] blocks of [blockDim] threads
    (fewer than [2^32] threads in all) every thread ends its loop, the
    threads together visit every position [0 .. N-1] exactly once, and
    running the loop body thread after thread gives what the launch gives.
    The shape of the launch does not change the result. *)
Theorem compareAndSwap_threads_cover
  (fuel : nat) (gridDim blockDim N level : Z)
  (inb : list Z) (directions : list bool) :
  1 <= gridDim -> 1 <= blockDim -> blockDim * gridDim < 2 ^ 32 ->
  0 <= N <= 2 ^ 62 -> (Z.to_nat N < fuel)%nat ->
  exists positions,
    compareAndSwap_threads fuel gridDim blockDim N = Some positions /\
    Permutation positions (comparator_positions N) /\
    for_each positions (compareAndSwap_body level) (inb, directions)
      = compareAndSwap inb directions level N.
Proof.
  intros HG HB HM HN Hf.
  rewrite two_pow_32 in HM. change (2 ^ 62) with 4611686018427387904 in HN.
  assert (Hst : forall b t, 0 <= b < gridDim -> 0 <= t < blockDim ->
                  0 <= blockDim * b + t < blockDim * gridDim)
    by (intros; nia).
  eexists. split; [|split].
  - unfold compareAndSwap_threads. apply collect_map_Some.
    intros b Hb. apply in_range in Hb. apply collect_map_Some.
    intros t Ht. apply in_range in Ht. unfold compareAndSwap_thread.
    specialize (Hst b t Hb Ht).
    rewrite to_ulong_id by (rewrite two_pow_64; lia).
    rewrite to_uint_id by (rewrite two_pow_32; lia).
    apply stride_loop_closed; lia.
  - apply launch_positions_Permutation; lia.
  - unfold compareAndSwap. symmetry.
    apply (for_each_Permutation (compareAndSwap_body level)
             (fun c => 0 <= c < 2 ^ 62)).
    + intros i j s Pi Pj. now apply compareAndSwap_body_commute.
    + apply Permutation_sym, launch_positions_Permutation; lia.
    + apply range_NoDup.
    + apply Forall_forall. intros c Hc. apply in_range in Hc.
      change (2 ^ 62) with 4611686018427387904. lia.
Qed.

Lemma compareAndSwap_threads_cover_witness :
  exists positions,
    compareAndSwap_threads 5 2 1 3 = Some positions /\
    Permutation positions (comparator_positions 3) /\
    for_each positions (compareAndSwap_body 0)
      ([3; 1; 4; 1; 5; 9], [true; true; true])
      = compareAndSwap [3; 1; 4; 1; 5; 9] [true; true; true] 0 3.
Proof.
  apply (compareAndSwap_threads_cover 5 2 1 3 0
           [3; 1; 4; 1; 5; 9] [true; true; true]);
    try lia; vm_compute; try split; congruence.
Defined.

Lemma wr_comm {A} (l : list A) i j v w :
  i <> j -> 0 <= i -> 0 <= j ->
  (l1 <- wr l i v ;; wr l1 j w) = (l2 <- wr l j w ;; wr l2 i v).
Proof.
  intros Hne Hi Hj. unfold wr.
  destruct ((0 <=? i) && (i <? Z.of_nat (length l))) eqn:Ei;
    destruct ((0 <=? j) && (j <? Z.of_nat (length l))) eqn:Ej;
    cbn [bind]; rewrite ?set_nth_length, ?Ei, ?Ej; try reflexivity.
  f_equal. apply set_nth_comm. lia.
Qed.

Lemma wr_None_after {A} (l l1 : list A) i j v w :
  wr l i v = None -> wr l j w = Some l1 -> wr l1 i v = None.
Proof.
  intros Hn Hs. apply wr_inv in Hs. destruct Hs as [_ ->].
  unfold wr in *. rewrite set_nth_length.
  destruct ((0 <=? i) && (i <? Z.of_nat (length l)));
    [discriminate|reflexivity].
Qed.

Lemma gather_commute f base p q s :
  0 <= base + p < 2 ^ 64 -> 0 <= base + q < 2 ^ 64 -> p <> q ->
  (s1 <- gather f base p s ;; gather f base q s1)
  = (s2 <- gather f base q s ;; gather f base p s2).
Proof.
  intros Hp Hq Hne. destruct s as [inb outb]. unfold gather. cbn [fst snd].
  rewrite (to_ulong_id (base + p)), (to_ulong_id (base + q)) by assumption.
  destruct (rd inb (to_ulong (base + f p))) as [vp|] eqn:Ep;
    destruct (rd inb (to_ulong (base + f q))) as [vq|] eqn:Eq; cbn [bind].
  - destruct (wr outb (base + p) vp) as [o1|] eqn:W1;
      destruct (wr outb (base + q) vq) as [o2|] eqn:W2;
      cbn [bind fst snd]; rewrite ?Ep, ?Eq; cbn [bind].
    + pose proof (wr_comm outb (base + p) (base + q) vp vq
                    ltac:(lia) ltac:(lia) ltac:(lia)) as Hc.
      rewrite W1, W2 in Hc. cbn [bind] in Hc. rewrite Hc.
      reflexivity.
    + now rewrite (wr_None_after outb o1 _ _ _ _ W2 W1).
    + now rewrite (wr_None_after outb o2 _ _ _ _ W1 W2).
    + reflexivity.
  - destruct (wr outb (base + p) vp) as [o1|]; cbn [bind fst snd];
      rewrite ?Eq; reflexivity.
  - destruct (wr outb (base + q) vq) as [o2|]; cbn [bind fst snd];
      rewrite ?Ep; reflexivity.
  - reflexivity.
Qed.

Lemma rd_after_wr_other {A} (l l1 : list A) i j v :
  i <> j -> wr l i v = Some l1 -> rd l1 j = rd l j.
Proof.
  intros Hne Hw. apply wr_inv in Hw. destruct Hw as [Hr ->].
  apply rd_set_nth_ne; lia.
Qed.

Lemma copy_back_commute base p q s :
  0 <= base + p < 2 ^ 64 -> 0 <= base + q < 2 ^ 64 -> p <> q ->
  (s1 <- copy_back base p s ;; copy_back base q s1)
  = (s2 <- copy_back base q s ;; copy_back base p s2).
Proof.
  intros Hp Hq Hne. destruct s as [inb outb]. unfold copy_back. cbn [fst snd].
  rewrite (to_ulong_id (base + p)), (to_ulong_id (base + q)) by assumption.
  destruct (rd outb (base + p)) as [vp|] eqn:Ep;
    destruct (rd outb (base + q)) as [vq|] eqn:Eq; cbn [bind].
  - destruct (wr inb (base + p) vp) as [i1|] eqn:W1;
      destruct (wr inb (base + q) vq) as [i2|] eqn:W2;
      cbn [bind fst snd]; rewrite ?Ep, ?Eq; cbn [bind].
    + pose proof (wr_comm inb (base + p) (base + q) vp vq
                    ltac:(lia) ltac:(lia) ltac:(lia)) as Hc.
      rewrite W1, W2 in Hc. cbn [bind] in Hc. rewrite Hc.
      reflexivity.
    + now rewrite (wr_None_after inb i1 _ _ _ _ W2 W1).
    + now rewrite (wr_None_after inb i2 _ _ _ _ W1 W2).
    + reflexivity.
  - destruct (wr inb (base + p) vp) as [i1|]; cbn [bind fst snd];
      rewrite ?Eq; reflexivity.
  - destruct (wr inb (base + q) vq) as [i2|]; cbn [bind fst snd];
      rewrite ?Ep; reflexivity.
  - reflexivity.
Qed.

(** X11: the stride loops of [shuffleN] and [butterflyN] cover the
    chunk: in a block of [blockDim] threads every thread ends its loops,
    the threads together visit every position [0 .. size-1] of the chunk
    exactly once, and running the gather loop thread after thread, then
    the copy-back loop thread after thread, gives what the block gives.
    The number of threads of the block does not change the result. *)
Theorem permute_threads_cover (fuel : nat) (blockDim size : Z) :
  1 <= blockDim < 2 ^ 32 -> 0 <= size < 2 ^ 31 ->
  (Z.to_nat size < fuel)%nat ->
  exists positions,
    permute_threads fuel blockDim size = Some positions /\
    Permutation positions (range (to_ulong size)) /\
    forall (ind_out : Z -> Z -> Z) (blockIdx : Z) (s : list Z * list Z),
      (s1 <- for_each positions
               (gather (ind_out size) (to_uint (blockIdx * size))) s ;;
       for_each positions (copy_back (to_uint (blockIdx * size))) s1)
      = permute_block ind_out size blockIdx s.
Proof.
  intros HB HS Hf. rewrite two_pow_32 in HB. rewrite two_pow_31 in HS.
  rewrite to_ulong_id by (rewrite two_pow_64; lia).
  assert (Hp : Permutation
                 (flat_map (fun s => map (fun k => s + k * blockDim)
                              (range ((size - s + blockDim - 1) / blockDim)))
                           (range blockDim))
                 (range size))
    by (apply stride_positions_Permutation; lia).
  eexists. split; [|split; [exact Hp|]].
  - unfold permute_threads. apply collect_map_Some.
    intros t Ht. apply in_range in Ht. unfold permute_thread.
    rewrite to_ulong_id by (rewrite two_pow_64; lia).
    apply stride_loop_closed; lia.
  - intros ind_out blockIdx s. unfold permute_block. cbv zeta.
    rewrite to_ulong_id by (rewrite two_pow_64; lia).
    assert (Hb : 0 <= to_uint (blockIdx * size) < 2 ^ 32)
      by (unfold to_uint; apply Z.mod_pos_bound; reflexivity).
    rewrite two_pow_32 in Hb.
    assert (HP : Forall (fun p => 0 <= p < size) (range size))
      by (apply Forall_forall; intros p Hin; now apply in_range in Hin).
    rewrite <- (for_each_Permutation
                  (gather (ind_out size) (to_uint (blockIdx * size)))
                  (fun p => 0 <= p < size)) with (l := range size);
      [|intros i j s0 Pi Pj Hne; apply gather_commute;
        rewrite ?two_pow_64; lia
       |now apply Permutation_sym|apply range_NoDup|exact HP].
    destruct (for_each (range size) _ s) as [s1|]; cbn [bind];
      [|reflexivity].
    symmetry.
    apply (for_each_Permutation (copy_back (to_uint (blockIdx * size)))
             (fun p => 0 <= p < size));
      [intros i j s0 Pi Pj Hne; apply copy_back_commute;
        rewrite ?two_pow_64; lia
      |now apply Permutation_sym|apply range_NoDup|exact HP].
Qed.

Lemma permute_threads_cover_witness :
  exists positions,
    permute_threads 9 3 8 = Some positions /\
    Permutation positions (range (to_ulong 8)) /\
    forall (ind_out : Z -> Z -> Z) (blockIdx : Z) (s : list Z * list Z),
      (s1 <- for_each positions
               (gather (ind_out 8) (to_uint (blockIdx * 8))) s ;;
       for_each positions (copy_back (to_uint (blockIdx * 8))) s1)
      = permute_block ind_out 8 blockIdx s.
Proof.
  apply (permute_threads_cover 9 3 8); try lia; vm_compute; split; congruence.
Defined.

(** ** The contract of the permutation kernels *)

(** One block, with what it leaves in [out] written out. *)
Lemma permute_block_full ind_out S b ipre chunk ipost opre omid opost :
  0 <= S -> 0 <= b -> Z.of_nat (length chunk) = S ->
  Z.of_nat (length ipre) = b * S ->
  Z.of_nat (length opre) = b * S -> Z.of_nat (length omid) = S ->
  b * S + S < 2 ^ 32 ->
  (forall p, 0 <= p < S -> 0 <= ind_out S p < S) ->
  permute_block ind_out S b (ipre ++ chunk ++ ipost, opre ++ omid ++ opost)
    = Some (ipre ++ apply_perm (ind_out S) S chunk ++ ipost,
            opre ++ apply_perm (ind_out S) S chunk ++ opost).
Proof.
  intros HS Hb Hc Hpre Hopre Homid H32 Hf. unfold permute_block.
  assert (H64 : 2 ^ 32 < 2 ^ 64) by reflexivity.
  assert (Hbase : to_uint (b * S) = b * S).
  { apply to_uint_id. nia. }
  rewrite Hbase.
  rewrite (to_ulong_id S) by (rewrite two_pow_32 in H32; rewrite two_pow_64; nia).
  rewrite range_zrange.
  set (base := b * S) in *.
  assert (Hbase0 : 0 <= base) by (subst base; nia).
  rewrite (gather_loop (ind_out S) base (ipre ++ chunk ++ ipost) (Z.to_nat S) 0
             opre omid opost); try lia.
  2:{ intros p Hp. specialize (Hf p ltac:(lia)).
      rewrite !length_app. lia. }
  cbn [bind].
  set (vals := map (fun p => nth (Z.to_nat (base + ind_out S p))
                                 (ipre ++ chunk ++ ipost) 0)
                   (zrange 0 (Z.to_nat S))).
  assert (Evals : vals = apply_perm (ind_out S) S chunk).
  { subst vals. unfold apply_perm. rewrite range_zrange.
    apply map_zrange_ext. intros p Hp. specialize (Hf p ltac:(lia)).
    replace (Z.to_nat (base + ind_out S p))
      with (length ipre + Z.to_nat (ind_out S p))%nat by lia.
    apply nth_app_at. lia. }
  assert (Lvals : length vals = Z.to_nat S)
    by (subst vals; now rewrite length_map, zrange_length).
  rewrite (copy_back_loop base (opre ++ vals ++ opost) (Z.to_nat S) 0
             ipre chunk ipost); try lia.
  2:{ rewrite !length_app, Lvals. lia. }
  rewrite <- Evals. do 4 f_equal.
  etransitivity; [|apply (map_nth_zrange vals)]. rewrite Lvals.
  apply map_zrange_ext. intros p Hp.
  replace (Z.to_nat (base + p)) with (length opre + Z.to_nat p)%nat by lia.
  apply nth_app_at. lia.
Qed.

Lemma permute_blocks_full ind_out S :
  0 < S -> (forall p, 0 <= p < S -> 0 <= ind_out S p < S) ->
  forall cs b0 done tail odone omid otail,
    Forall (fun ch => Z.of_nat (length ch) = S) cs ->
    0 <= b0 -> Z.of_nat (length done) = b0 * S ->
    Z.of_nat (length odone) = b0 * S ->
    Z.of_nat (length omid) = Z.of_nat (length cs) * S ->
    (b0 + Z.of_nat (length cs)) * S < 2 ^ 32 ->
    for_each (zrange b0 (length cs)) (permute_block ind_out S)
      (done ++ concat cs ++ tail, odone ++ omid ++ otail)
      = Some (done ++ concat (map (apply_perm (ind_out S) S) cs) ++ tail,
              odone ++ concat (map (apply_perm (ind_out S) S) cs) ++ otail).
Proof.
  intros HS Hf. induction cs as [|ch cs IH];
    intros b0 done tail odone omid otail Hcs Hb Hdone Hodone Homid H32.
  - destruct omid; [reflexivity|]. cbn [length] in Homid. lia.
  - inversion Hcs as [|? ? Hch Hcs']; subst.
    cbn [length zrange for_each concat map].
    cbn [length] in Homid, H32.
    destruct (split_prefix omid (length ch)) as [om1 [om2 [-> Hom1]]]; [nia|].
    rewrite length_app in Homid.
    rewrite <- !(app_assoc ch), <- (app_assoc om1).
    rewrite (permute_block_full ind_out (Z.of_nat (length ch)) b0 done ch
               (concat cs ++ tail) odone om1 (om2 ++ otail));
      try nia; try assumption; try lia.
    cbn [bind].
    rewrite (app_assoc done), (app_assoc odone).
    rewrite (IH (b0 + 1)); try assumption; try nia.
    + rewrite <- !app_assoc. reflexivity.
    + rewrite length_app, apply_perm_length. nia.
    + rewrite length_app, apply_perm_length. nia.
Qed.

(** A list of [g * S] cells is [g] chunks of [S] cells. *)
Lemma chunks_of (S : Z) :
  0 < S ->
  forall (g : nat) (l : list Z),
    Z.of_nat (length l) = Z.of_nat g * S ->
    exists cs, l = concat cs /\ length cs = g /\
      Forall (fun ch => Z.of_nat (length ch) = S) cs.
Proof.
  intros HS. induction g as [|g IH]; intros l Hl.
  - exists []. destruct l; [auto|cbn [length] in Hl; lia].
  - destruct (split_prefix l (Z.to_nat S)) as [ch [rest [-> Hch]]]; [nia|].
    rewrite length_app in Hl.
    destruct (IH rest) as [cs [-> [Hcs HF]]]; [nia|].
    exists (ch :: cs). cbn [concat length]. split; [reflexivity|].
    split; [lia|]. constructor; [lia|exact HF].
Qed.

Lemma apply_perm_Permutation f S chunk :
  Z.of_nat (length chunk) = S -> bijective_on S f ->
  Permutation chunk (apply_perm f S chunk).
Proof.
  intros Hl Hb. apply Permutation_sym.
  pose proof (bijective_on_Permutation S f Hb) as Hp.
  apply (Permutation_map (fun i => nth (Z.to_nat i) chunk 0)) in Hp.
  rewrite map_map in Hp. unfold apply_perm.
  eapply Permutation_trans; [exact Hp|].
  rewrite range_zrange. replace (Z.to_nat S) with (length chunk) by lia.
  rewrite map_nth_zrange. apply Permutation_refl.
Qed.

Lemma concat_map_perm_Permutation f S cs :
  Forall (fun ch => Z.of_nat (length ch) = S) cs -> bijective_on S f ->
  Permutation (concat cs) (concat (map (apply_perm f S) cs)).
Proof.
  intros Hcs Hb. induction Hcs as [|ch cs Hch Hcs IH]; cbn [concat map].
  - apply Permutation_refl.
  - apply Permutation_app; [now apply apply_perm_Permutation|exact IH].
Qed.

Lemma nth_concat_map_perm f S cs :
  0 < S -> (forall p, 0 <= p < S -> 0 <= f p < S) ->
  Forall (fun ch => Z.of_nat (length ch) = S) cs ->
  forall b p,
    0 <= b < Z.of_nat (length cs) -> 0 <= p < S ->
    nth (Z.to_nat (b * S + p)) (concat (map (apply_perm f S) cs)) 0
      = nth (Z.to_nat (b * S + f p)) (concat cs) 0.
Proof.
  intros HS Hf Hcs. induction Hcs as [|ch cs Hch Hcs IH]; intros b p Hb Hp.
  - cbn [length] in Hb. lia.
  - cbn [concat map]. pose proof (Hf p Hp) as Hfp.
    destruct (Z.eq_dec b 0) as [->|Hne].
    + rewrite !Z.mul_0_l, !Z.add_0_l.
      rewrite !app_nth1 by (rewrite ?apply_perm_length; lia).
      rewrite nth_apply_perm by lia. now rewrite Z2Nat.id by lia.
    + cbn [length] in Hb.
      rewrite !app_nth2 by (rewrite ?apply_perm_length; nia).
      rewrite apply_perm_length.
      specialize (IH (b - 1) p ltac:(lia) Hp).
      replace (Z.to_nat (b * S + p) - Z.to_nat S)%nat
        with (Z.to_nat ((b - 1) * S + p)) by nia.
      replace (Z.to_nat (b * S + f p) - length ch)%nat
        with (Z.to_nat ((b - 1) * S + f p)) by nia.
      exact IH.
Qed.

(** A permutation launch on buffers with room for its [g] chunks. *)
Lemma permute_launch_contract ind_out g S (inb outb : list Z) :
  0 < S -> 0 <= g -> g * S < 2 ^ 32 ->
  bijective_on S (ind_out S) ->
  g * S <= Z.of_nat (length inb) -> g * S <= Z.of_nat (length outb) ->
  exists inb' outb',
    for_each (range g) (permute_block ind_out S) (inb, outb)
      = Some (inb', outb') /\
    permuted_by (ind_out S) g S inb outb inb' outb'.
Proof.
  intros HS Hg H32 Hbij Hi Ho. pose proof (proj1 Hbij) as Hf.
  destruct (split_prefix inb (Z.to_nat (g * S))) as [body [tail [-> Hbody]]];
    [lia|].
  destruct (split_prefix outb (Z.to_nat (g * S))) as [omid [otail [-> Homid]]];
    [lia|].
  destruct (chunks_of S HS (Z.to_nat g) body) as [cs [-> [Hcs HF]]]; [nia|].
  exists (concat (map (apply_perm (ind_out S) S) cs) ++ tail),
         (concat (map (apply_perm (ind_out S) S) cs) ++ otail).
  split.
  - rewrite range_zrange, <- Hcs.
    apply (permute_blocks_full ind_out S HS Hf cs 0 [] tail [] omid otail);
      try assumption; try reflexivity; nia.
  - assert (Lc : length (concat (map (apply_perm (ind_out S) S) cs))
                 = length (concat cs))
      by (apply concat_map_perm_length; [lia|exact HF]).
    unfold permuted_by. rewrite !length_app.
    split; [lia|]. split; [lia|].
    split; [apply Permutation_app_tail;
            now apply concat_map_perm_Permutation|].
    split; [|split].
    + intros b p Hb Hp. pose proof (Hf p Hp) as Hfp.
      rewrite !app_nth1 by nia.
      apply nth_concat_map_perm; try assumption. lia.
    + intros i Hi'. rewrite !app_nth1 by lia. reflexivity.
    + intros i Hi'. rewrite !app_nth2 by lia.
      split; f_equal; lia.
Qed.

(** X12: the result of the two permutation launches.  On buffers with
    room for the [g] chunks of [S = 2^k] cells ([1 <= k <= 30]),
    [shuffleN] and [butterflyN] return; position [p] of every chunk of
    [in] receives the key of position [ind_out p] of the same chunk, so
    [in] is permuted; the first [g*S] cells of [out] end as a copy of
    those of [in]; the cells from [g*S] on are not touched. *)
Theorem permutation_kernels_contract (k g S N : Z) (inb outb : list Z) :
  S = 2 ^ k -> 1 <= k <= 30 -> 0 <= g -> g * S < 2 ^ 32 ->
  g * S <= Z.of_nat (length inb) -> g * S <= Z.of_nat (length outb) ->
  (exists inb' outb',
     shuffleN g inb outb S N = Some (inb', outb') /\
     permuted_by (shuffleN_ind_out S) g S inb outb inb' outb') /\
  (exists inb' outb',
     butterflyN g inb outb S N = Some (inb', outb') /\
     permuted_by (butterflyN_ind_out S) g S inb outb inb' outb').
Proof.
  intros -> Hk Hg H32 Hi Ho.
  destruct (pow2_shape k Hk) as [Hr Hsh].
  split.
  - apply permute_launch_contract; try assumption; try lia.
    apply shuffleN_bijective; [exact Hr|].
    destruct Hsh as [->|[q ->]]; [reflexivity|zlia].
  - apply permute_launch_contract; try assumption; try lia.
    now apply butterflyN_bijective.
Qed.

Lemma permutation_kernels_contract_witness :
  (exists inb' outb',
     shuffleN 2 [1; 2; 3; 4; 5; 6; 7; 8; 9] [0; 0; 0; 0; 0; 0; 0; 0] 4 8
       = Some (inb', outb') /\
     permuted_by (shuffleN_ind_out 4) 2 4
       [1; 2; 3; 4; 5; 6; 7; 8; 9] [0; 0; 0; 0; 0; 0; 0; 0] inb' outb') /\
  (exists inb' outb',
     butterflyN 2 [1; 2; 3; 4; 5; 6; 7; 8; 9] [0; 0; 0; 0; 0; 0; 0; 0] 4 8
       = Some (inb', outb') /\
     permuted_by (butterflyN_ind_out 4) 2 4
       [1; 2; 3; 4; 5; 6; 7; 8; 9] [0; 0; 0; 0; 0; 0; 0; 0] inb' outb').
Proof.
  apply (permutation_kernels_contract 2 2 4 8
           [1; 2; 3; 4; 5; 6; 7; 8; 9] [0; 0; 0; 0; 0; 0; 0; 0]);
    try reflexivity; try lia; try (vm_compute; congruence);
    simpl; lia.
Defined.

(** ** Where the permutation kernels return, and their round trips *)

Lemma copy_back_loop_in base :
  forall k p0 s s',
    0 <= base -> 0 <= p0 -> base + p0 + Z.of_nat k < 2 ^ 64 ->
    for_each (zrange p0 k) (copy_back base) s = Some s' ->
    (0 < k)%nat -> base + p0 + Z.of_nat k <= Z.of_nat (length (fst s)).
Proof.
  induction k as [|k IH]; intros p0 s s' Hb Hp Hmax Hrun Hk; [lia|].
  cbn [zrange for_each] in Hrun.
  destruct (copy_back base p0 s) as [s1|] eqn:E; [|discriminate].
  cbn [bind] in Hrun. unfold copy_back in E.
  rewrite (to_ulong_id (base + p0)) in E by lia.
  destruct (rd (snd s) _) as [v|]; [|discriminate]. cbn [bind] in E.
  destruct (wr (fst s) _ v) as [in'|] eqn:W; [|discriminate].
  cbn [bind] in E. injection E as <-.
  apply wr_inv in W. destruct W as [Hr ->].
  destruct k as [|k]; [lia|].
  apply IH in Hrun; try lia. cbn [fst] in Hrun.
  rewrite set_nth_length in Hrun. lia.
Qed.

Lemma permute_block_in ind_out S b s s' :
  1 <= S -> 0 <= b -> b * S + S < 2 ^ 32 ->
  permute_block ind_out S b s = Some s' ->
  b * S + S <= Z.of_nat (length (fst s)).
Proof.
  intros HS Hb H32. unfold permute_block.
  assert (H64 : 2 ^ 32 < 2 ^ 64) by reflexivity.
  rewrite (to_uint_id (b * S)) by nia.
  rewrite (to_ulong_id S) by nia. rewrite range_zrange.
  destruct (for_each (zrange 0 (Z.to_nat S)) (gather (ind_out S) (b * S)) s)
    as [s1|] eqn:G; [|discriminate]. cbn [bind]. intros C.
  apply gather_loop_Some in G; [|nia..].
  apply copy_back_loop_in in C; [|nia..].
  destruct G as [_ [L1 _]]. lia.
Qed.

Lemma permute_blocks_in ind_out S :
  1 <= S ->
  forall k b0 s s',
    0 <= b0 -> (b0 + Z.of_nat k) * S < 2 ^ 32 ->
    for_each (zrange b0 k) (permute_block ind_out S) s = Some s' ->
    (0 < k)%nat -> (b0 + Z.of_nat k) * S <= Z.of_nat (length (fst s)).
Proof.
  intros HS. induction k as [|k IH]; intros b0 s s' Hb H32 Hrun Hk; [lia|].
  cbn [zrange for_each] in Hrun.
  destruct (permute_block ind_out S b0 s) as [s1|] eqn:E; [|discriminate].
  cbn [bind] in Hrun.
  pose proof (permute_block_in _ _ _ _ _ HS Hb ltac:(nia) E) as Hin.
  apply permute_block_Some in E; [|nia..].
  destruct k as [|k]; [nia|].
  apply IH in Hrun; [|nia..]. destruct E as [_ [E2 _]]. nia.
Qed.

Lemma permute_launch_bounds ind_out g S inb outb r :
  1 <= S -> 1 <= g -> g * S < 2 ^ 32 ->
  for_each (range g) (permute_block ind_out S) (inb, outb) = Some r ->
  g * S <= Z.of_nat (length inb) /\ g * S <= Z.of_nat (length outb).
Proof.
  intros HS Hg H32 Hrun. rewrite range_zrange in Hrun. split.
  - apply permute_blocks_in in Hrun; try lia. cbn [fst] in Hrun. lia.
  - apply permute_blocks_Some in Hrun; try lia.
    destruct Hrun as [Hk _]. cbn [snd] in Hk. specialize (Hk ltac:(lia)). lia.
Qed.

(** X13: a permutation launch of [g >= 1] blocks on chunks of [S = 2^k]
    cells returns exactly when [in] and [out] both have at least [g*S]
    cells. *)
Theorem permutation_kernels_return_iff (k g S N : Z) (inb outb : list Z) :
  S = 2 ^ k -> 1 <= k <= 30 -> 1 <= g -> g * S < 2 ^ 32 ->
  ((exists r, shuffleN g inb outb S N = Some r) <->
   (g * S <= Z.of_nat (length inb) /\ g * S <= Z.of_nat (length outb))) /\
  ((exists r, butterflyN g inb outb S N = Some r) <->
   (g * S <= Z.of_nat (length inb) /\ g * S <= Z.of_nat (length outb))).
Proof.
  intros -> Hk Hg H32.
  destruct (pow2_shape k Hk) as [Hr Hsh].
  assert (Hsb : bijective_on (2 ^ k) (shuffleN_ind_out (2 ^ k))).
  { apply shuffleN_bijective; [exact Hr|].
    destruct Hsh as [->|[q ->]]; [reflexivity|zlia]. }
  assert (Hbb : bijective_on (2 ^ k) (butterflyN_ind_out (2 ^ k)))
    by now apply butterflyN_bijective.
  split; split.
  - intros [r Hrun]. apply (permute_launch_bounds _ _ _ _ _ r) in Hrun; lia.
  - intros [Hi Ho].
    destruct (permute_launch_contract shuffleN_ind_out g (2 ^ k) inb outb)
      as [i' [o' [Hrun _]]]; try assumption; try lia.
    eexists. exact Hrun.
  - intros [r Hrun]. apply (permute_launch_bounds _ _ _ _ _ r) in Hrun; lia.
  - intros [Hi Ho].
    destruct (permute_launch_contract butterflyN_ind_out g (2 ^ k) inb outb)
      as [i' [o' [Hrun _]]]; try assumption; try lia.
    eexists. exact Hrun.
Qed.

Lemma permutation_kernels_return_iff_witness :
  ((exists r, shuffleN 2 [1; 2; 3; 4; 5; 6; 7] [0; 0; 0; 0; 0; 0; 0; 0] 4 8
              = Some r) <->
   (2 * 4 <= Z.of_nat (length [1; 2; 3; 4; 5; 6; 7]) /\
    2 * 4 <= Z.of_nat (length [0; 0; 0; 0; 0; 0; 0; 0]))) /\
  ((exists r, butterflyN 2 [1; 2; 3; 4; 5; 6; 7] [0; 0; 0; 0; 0; 0; 0; 0] 4 8
              = Some r) <->
   (2 * 4 <= Z.of_nat (length [1; 2; 3; 4; 5; 6; 7]) /\
    2 * 4 <= Z.of_nat (length [0; 0; 0; 0; 0; 0; 0; 0]))).
Proof.
  apply (permutation_kernels_return_iff 2 2 4 8
           [1; 2; 3; 4; 5; 6; 7] [0; 0; 0; 0; 0; 0; 0; 0]);
    try reflexivity; try lia; vm_compute; congruence.
Defined.

(** A launch on buffers cut into chunks. *)
Lemma permute_launch_chunks ind_out S cs tail omid otail :
  0 < S -> (forall p, 0 <= p < S -> 0 <= ind_out S p < S) ->
  Forall (fun ch => Z.of_nat (length ch) = S) cs ->
  Z.of_nat (length omid) = Z.of_nat (length cs) * S ->
  Z.of_nat (length cs) * S < 2 ^ 32 ->
  for_each (range (Z.of_nat (length cs))) (permute_block ind_out S)
    (concat cs ++ tail, omid ++ otail)
    = Some (concat (map (apply_perm (ind_out S) S) cs) ++ tail,
            concat (map (apply_perm (ind_out S) S) cs) ++ otail).
Proof.
  intros HS Hf HF Ho H32. rewrite range_zrange, Nat2Z.id.
  apply (permute_blocks_full ind_out S HS Hf cs 0 [] tail [] omid otail);
    try assumption; try reflexivity; lia.
Qed.

(** Buffers with room for [g] chunks, cut into chunks. *)
Lemma cut_into_chunks g S (inb outb : list Z) :
  0 < S -> 0 <= g ->
  g * S <= Z.of_nat (length inb) -> g * S <= Z.of_nat (length outb) ->
  exists cs tail omid otail,
    inb = concat cs ++ tail /\ outb = omid ++ otail /\
    Z.of_nat (length cs) = g /\
    Forall (fun ch => Z.of_nat (length ch) = S) cs /\
    Z.of_nat (length omid) = g * S.
Proof.
  intros HS Hg Hi Ho.
  destruct (split_prefix inb (Z.to_nat (g * S))) as [body [tail [-> Hbody]]];
    [lia|].
  destruct (split_prefix outb (Z.to_nat (g * S))) as [omid [otail [-> Homid]]];
    [lia|].
  destruct (chunks_of S HS (Z.to_nat g) body) as [cs [-> [Hcs HF]]]; [nia|].
  exists cs, tail, omid, otail. repeat split; try assumption; nia.
Qed.

Lemma apply_perm_involutive f S chunk :
  Z.of_nat (length chunk) = S ->
  (forall p, 0 <= p < S -> 0 <= f p < S /\ f (f p) = p) ->
  apply_perm f S (apply_perm f S chunk) = chunk.
Proof.
  intros Hl Hf. apply (nth_ext _ _ 0 0).
  - rewrite apply_perm_length. lia.
  - intros i Hi. rewrite apply_perm_length in Hi.
    destruct (Hf (Z.of_nat i) ltac:(lia)) as [Hr Hinv].
    rewrite nth_apply_perm by exact Hi.
    rewrite nth_apply_perm by lia.
    rewrite Z2Nat.id, Hinv by lia. now rewrite Nat2Z.id.
Qed.

(** X14: [butterflyN] is its own inverse: a second butterfly launch on
    the buffers the first one left puts every key of [in] back where it
    was. *)
Theorem butterflyN_involutive
  (k g S N : Z) (inb outb in1 out1 : list Z) :
  S = 2 ^ k -> 1 <= k <= 30 -> 0 <= g -> g * S < 2 ^ 32 ->
  butterflyN g inb outb S N = Some (in1, out1) ->
  exists out2, butterflyN g in1 out1 S N = Some (inb, out2).
Proof.
  intros -> Hk Hg H32 Hrun.
  destruct (pow2_shape k Hk) as [Hr Hsh].
  destruct (Z.eq_dec g 0) as [->|Hne].
  - cbn in Hrun. injection Hrun as <- <-. exists outb. reflexivity.
  - unfold butterflyN in *.
    destruct (permute_launch_bounds butterflyN_ind_out g (2 ^ k) inb outb
                (in1, out1)) as [Hi Ho]; [lia|lia|exact H32|exact Hrun|].
    destruct (cut_into_chunks g (2 ^ k) inb outb)
      as [cs [tail [omid [otail [-> [-> [Hcs [HF Hom]]]]]]]]; try lia.
    subst g.
    assert (Hrange : forall p, 0 <= p < 2 ^ k ->
                       0 <= butterflyN_ind_out (2 ^ k) p < 2 ^ k)
      by (intros p Hp; now apply butterflyN_ind_out_range).
    rewrite permute_launch_chunks in Hrun; try assumption; try lia.
    injection Hrun as <- <-.
    set (AP := apply_perm (butterflyN_ind_out (2 ^ k)) (2 ^ k)).
    assert (HF' : Forall (fun ch => Z.of_nat (length ch) = 2 ^ k) (map AP cs))
      by (apply Forall_length_map_perm; lia).
    replace (Z.of_nat (length cs)) with (Z.of_nat (length (map AP cs)))
      by now rewrite length_map.
    rewrite permute_launch_chunks; try assumption; try lia.
    + eexists. do 2 f_equal. do 2 f_equal. rewrite map_map.
      rewrite <- (map_id cs) at 2. apply map_ext_in.
      intros ch Hch. rewrite Forall_forall in HF.
      apply apply_perm_involutive; [now apply HF|].
      intros p Hp. split; [now apply Hrange|].
      now apply butterflyN_ind_out_involutive.
    + now rewrite (Forall_length_concat (2 ^ k) (map AP cs)).
    + rewrite length_map. lia.
Qed.

Lemma butterflyN_involutive_witness :
  exists out2,
    butterflyN 2 [1; 3; 2; 4; 5; 7; 6; 8; 9] [1; 3; 2; 4; 5; 7; 6; 8] 4 8
      = Some ([1; 2; 3; 4; 5; 6; 7; 8; 9], out2).
Proof.
  apply (butterflyN_involutive 2 2 4 8
           [1; 2; 3; 4; 5; 6; 7; 8; 9] [0; 0; 0; 0; 0; 0; 0; 0]);
    try reflexivity; try lia; vm_compute; congruence.
Defined.

(** ** The order of the perfect shuffle *)

Lemma shuffleN_ind_out_formula S p :
  2 <= S <= 1073741824 -> S mod 2 = 0 -> 0 <= p < S ->
  shuffleN_ind_out S p = p / 2 + (p mod 2) * (S / 2).
Proof.
  intros HS He Hp. unfold shuffleN_ind_out.
  destruct (p mod 2 =? 0) eqn:E; bool_to_prop.
  - rewrite E. lia.
  - assert (E1 : p mod 2 = 1) by zlia. rewrite E1. unfold_conv. zlia.
Qed.

(** [j] shuffles rotate the [k] bits of an index right by [j] places. *)
Lemma shuffleN_ind_out_iter k p :
  1 <= k <= 30 -> 0 <= p < 2 ^ k ->
  forall j : nat,
    Z.of_nat j <= k ->
    Nat.iter j (shuffleN_ind_out (2 ^ k)) p
      = p / 2 ^ Z.of_nat j + (p mod 2 ^ Z.of_nat j) * 2 ^ (k - Z.of_nat j).
Proof.
  intros Hk Hp. induction j as [|j IH]; intros Hj.
  - change (Nat.iter 0 (shuffleN_ind_out (2 ^ k)) p) with p.
    cbn [Z.of_nat]. change (2 ^ 0) with 1.
    rewrite Z.div_1_r, Z.mod_1_r. lia.
  - rewrite Nat.iter_succ, IH by lia.
    rewrite Nat2Z.inj_succ, <- Z.add_1_r.
    set (A := 2 ^ Z.of_nat j). set (P := 2 ^ (k - (Z.of_nat j + 1))).
    assert (HA : 0 < A) by (apply pow2_pos; lia).
    assert (HP : 0 < P) by (apply pow2_pos; lia).
    assert (E1 : 2 ^ (k - Z.of_nat j) = 2 * P).
    { unfold P. rewrite <- pow2_succ by lia. f_equal. lia. }
    assert (E2 : 2 ^ (Z.of_nat j + 1) = A * 2).
    { unfold A. rewrite pow2_succ by lia. lia. }
    assert (E3 : 2 ^ k = 2 * (A * P)).
    { unfold A, P. rewrite <- Z.pow_add_r, <- pow2_succ by lia. f_equal. lia. }
    rewrite E1, E2, E3.
    pose proof (Z.div_mod p A ltac:(lia)) as Dp.
    pose proof (Z.mod_pos_bound p A HA) as Bp.
    pose proof (Z.div_mod (p / A) 2 ltac:(lia)) as Da.
    pose proof (Z.mod_pos_bound (p / A) 2 ltac:(lia)) as Ba.
    assert (Ha : 0 <= p / A < 2 * P).
    { split; [apply Z.div_pos; lia|].
      apply Z.div_lt_upper_bound; [lia|]. rewrite E3 in Hp. lia. }
    destruct (pow2_shape k Hk) as [Hr Hsh]. rewrite E3 in Hr.
    rewrite shuffleN_ind_out_formula; [|exact Hr| |nia].
    2:{ rewrite Z.mul_comm. apply Z.mod_mul. lia. }
    replace (2 * (A * P) / 2) with (A * P)
      by (rewrite (Z.mul_comm 2 (A * P)), Z.div_mul by lia; reflexivity).
    replace (p / A + p mod A * (2 * P)) with (p / A + (p mod A * P) * 2) by lia.
    rewrite Z.div_add, Z.mod_add by lia.
    rewrite <- Z.div_div by lia.
    rewrite Z.rem_mul_r by lia. lia.
Qed.

Lemma apply_perm_iter f S chunk :
  Z.of_nat (length chunk) = S ->
  (forall p, 0 <= p < S -> 0 <= f p < S) ->
  forall j : nat,
    Nat.iter j (apply_perm f S) chunk
      = map (fun p => nth (Z.to_nat (Nat.iter j f p)) chunk 0) (range S).
Proof.
  intros Hl Hf. induction j as [|j IH].
  - change (Nat.iter 0 (apply_perm f S) chunk) with chunk.
    rewrite range_zrange.
    replace (Z.to_nat S) with (length chunk) by lia.
    symmetry. apply (map_nth_zrange chunk).
  - rewrite Nat.iter_succ, IH. unfold apply_perm at 1.
    apply map_ext_in. intros p Hp. apply in_range in Hp.
    pose proof (Hf p Hp) as Hfp.
    rewrite range_zrange, nth_map_zrange by lia.
    rewrite Z.add_0_l, Z2Nat.id by lia.
    rewrite <- Nat.iter_succ_r. reflexivity.
Qed.

Lemma shuffleN_times_chunks S N :
  0 < S -> (forall p, 0 <= p < S -> 0 <= shuffleN_ind_out S p < S) ->
  forall (t : nat) cs tail omid otail,
    Forall (fun ch => Z.of_nat (length ch) = S) cs ->
    Z.of_nat (length omid) = Z.of_nat (length cs) * S ->
    Z.of_nat (length cs) * S < 2 ^ 32 ->
    exists omid',
      shuffleN_times t (Z.of_nat (length cs))
        (concat cs ++ tail) (omid ++ otail) S N
      = Some (concat (map (Nat.iter t (apply_perm (shuffleN_ind_out S) S)) cs)
              ++ tail,
              omid' ++ otail).
Proof.
  intros HS Hf. induction t as [|t IH]; intros cs tail omid otail HF Ho H32.
  - exists omid. cbn [shuffleN_times].
    change (Nat.iter 0 (apply_perm (shuffleN_ind_out S) S)) with (fun ch : list Z => ch).
    now rewrite map_id.
  - cbn [shuffleN_times]. unfold shuffleN.
    rewrite permute_launch_chunks by assumption. cbn [bind fst snd].
    set (AP := apply_perm (shuffleN_ind_out S) S).
    assert (HF' : Forall (fun ch => Z.of_nat (length ch) = S) (map AP cs))
      by (apply Forall_length_map_perm; lia).
    destruct (IH (map AP cs) tail (concat (map AP cs)) otail) as [omid' Hrun].
    + exact HF'.
    + now rewrite (Forall_length_concat S (map AP cs)).
    + rewrite length_map. exact H32.
    + rewrite length_map in Hrun. exists omid'. rewrite Hrun.
      do 3 f_equal. rewrite map_map. f_equal. apply map_ext. intros ch.
      now rewrite Nat.iter_succ_r.
Qed.

(** X15: the perfect shuffle of [2^k] cells has order [k]: [k] shuffle
    launches in a row on chunks of [S = 2^k] cells put every key of [in]
    back where it was. *)
Theorem shuffleN_k_times_is_identity
  (k g S N : Z) (inb outb : list Z) :
  S = 2 ^ k -> 1 <= k <= 30 -> 0 <= g -> g * S < 2 ^ 32 ->
  g * S <= Z.of_nat (length inb) -> g * S <= Z.of_nat (length outb) ->
  exists out',
    shuffleN_times (Z.to_nat k) g inb outb S N = Some (inb, out').
Proof.
  intros -> Hk Hg H32 Hi Ho.
  destruct (pow2_shape k Hk) as [Hr Hsh].
  assert (He : 2 ^ k mod 2 = 0)
    by (destruct Hsh as [->|[q ->]]; [reflexivity|zlia]).
  assert (Hrange : forall p, 0 <= p < 2 ^ k ->
                     0 <= shuffleN_ind_out (2 ^ k) p < 2 ^ k)
    by (intros p Hp; now apply shuffleN_ind_out_range).
  destruct (cut_into_chunks g (2 ^ k) inb outb)
    as [cs [tail [omid [otail [-> [-> [Hcs [HF Hom]]]]]]]]; try lia.
  subst g.
  destruct (shuffleN_times_chunks (2 ^ k) N ltac:(lia) Hrange (Z.to_nat k)
              cs tail omid otail HF Hom H32) as [omid' Hrun].
  exists (omid' ++ otail). rewrite Hrun. do 4 f_equal.
  rewrite <- (map_id cs) at 2. apply map_ext_in. intros ch Hch.
  rewrite Forall_forall in HF.
  rewrite (apply_perm_iter _ (2 ^ k)); [|now apply HF|exact Hrange].
  etransitivity; [|apply (map_nth_zrange ch)].
  rewrite range_zrange.
  replace (Z.to_nat (2 ^ k)) with (length ch) by (rewrite <- (HF ch Hch); lia).
  apply map_zrange_ext. intros p Hp. rewrite (HF ch Hch) in Hp.
  rewrite shuffleN_ind_out_iter by lia.
  rewrite Z2Nat.id, Z.sub_diag by lia. change (2 ^ 0) with 1.
  rewrite Z.div_small, Z.mod_small by lia. f_equal. lia.
Qed.

Lemma shuffleN_k_times_is_identity_witness :
  exists out',
    shuffleN_times (Z.to_nat 3) 1 [1; 2; 3; 4; 5; 6; 7; 8; 9]
      [0; 0; 0; 0; 0; 0; 0; 0] 8 8
    = Some ([1; 2; 3; 4; 5; 6; 7; 8; 9], out').
Proof.
  apply (shuffleN_k_times_is_identity 3 1 8 8
           [1; 2; 3; 4; 5; 6; 7; 8; 9] [0; 0; 0; 0; 0; 0; 0; 0]);
    try reflexivity; try lia; try (vm_compute; congruence); simpl; lia.
Defined.

(** ** The launches of benyan, counted *)







(** ** The parameters of the launches *)

Lemma pow2_div n j : 0 <= j <= n -> 2 ^ n / 2 ^ j = 2 ^ (n - j).
Proof. intros H. symmetry. apply Z.pow_sub_r; lia. Qed.

Lemma pow2_bounds30 j : 0 <= j <= 30 -> 1 <= 2 ^ j <= 1073741824.
Proof.
  intros H. rewrite <- two_pow_30. change 1 with (2 ^ 0) at 1.
  split; apply pow2_le_mono; lia.
Qed.

(** The launch parameters [div] and [N/div] of a pass of the inner
    loop. *)
Lemma benyan_div n s t :
  1 <= n <= 30 -> 0 <= t <= s -> s <= n - 2 ->
  to_int (2 ^ n / 2 ^ (2 + s - t)) = 2 ^ (n - 2 - s + t) /\
  to_int (2 ^ n / to_ulong (to_int (2 ^ n / 2 ^ (2 + s - t))))
    = 2 ^ (2 + s - t).
Proof.
  intros Hn Ht Hs.
  pose proof (pow2_bounds30 (n - 2 - s + t) ltac:(lia)) as B1.
  pose proof (pow2_bounds30 (2 + s - t) ltac:(lia)) as B2.
  rewrite pow2_div by lia. replace (n - (2 + s - t)) with (n - 2 - s + t) by lia.
  rewrite to_int_id by (rewrite two_pow_31; lia).
  rewrite to_ulong_id by (rewrite two_pow_64; lia).
  rewrite pow2_div by lia. replace (n - (n - 2 - s + t)) with (2 + s - t) by lia.
  split; [reflexivity|]. apply to_int_id. rewrite two_pow_31. lia.
Qed.

Lemma substage_launches_parameters n s t level :
  1 <= n <= 30 -> 0 <= t <= s -> s <= n - 2 ->
  level = (if t =? 0 then s else s + 1) ->
  Forall (launch_parameters n) (substage_launches (2 ^ n) s t level).
Proof.
  intros Hn Ht Hs Hl. unfold substage_launches.
  destruct (benyan_div n s t Hn Ht Hs) as [-> ->].
  destruct (t =? 0) eqn:E; bool_to_prop; subst level.
  - subst t. rewrite to_int_id by (rewrite two_pow_31; lia).
    cbn [app]. repeat constructor; unfold launch_parameters;
      cbn [l_stage l_substage l_phase l_kernel is_phaseA Z.eqb andb];
      repeat split; try lia; f_equal; lia.
  - replace (t =? 0) with false
      by (symmetry; apply Z.eqb_neq; lia).
    cbn [app]. repeat constructor; unfold launch_parameters;
      cbn [l_stage l_substage l_phase l_kernel is_phaseA];
      replace (t =? 0) with false by (symmetry; apply Z.eqb_neq; lia);
      cbn [andb]; repeat split; try lia; f_equal; lia.
Qed.

Lemma stage_launches_parameters n s :
  1 <= n <= 30 -> s <= n - 2 ->
  forall k t level,
    0 <= t -> t + Z.of_nat k = s + 1 ->
    level = (if t =? 0 then s else s + 1) ->
    Forall (launch_parameters n) (stage_launches k (2 ^ n) s t level).
Proof.
  intros Hn Hs. induction k as [|k IH]; intros t level Ht Hk Hl.
  - constructor.
  - cbn [stage_launches]. apply Forall_app. split.
    + apply substage_launches_parameters; try assumption; lia.
    + apply IH; try lia.
      replace (t + 1 =? 0) with false by (symmetry; apply Z.eqb_neq; lia).
      destruct (t =? 0); subst level;
        [apply to_int_id; rewrite two_pow_31; lia|reflexivity].
Qed.

Lemma stages_launches_parameters n :
  1 <= n <= 30 ->
  forall k s,
    0 <= s -> s + Z.of_nat k = n - 1 ->
    Forall (launch_parameters n) (stages_launches k (2 ^ n) s s).
Proof.
  intros Hn. induction k as [|k IH]; intros s Hs Hk.
  - cbn [stages_launches]. repeat constructor; unfold launch_parameters;
      cbn [l_stage l_substage l_phase l_kernel is_phaseA Z.eqb andb];
      repeat split; lia.
  - cbn [stages_launches]. apply Forall_app. split.
    + apply stage_launches_parameters; try assumption; try lia. reflexivity.
    + rewrite to_int_id by (rewrite two_pow_31; lia). apply IH; lia.
Qed.

(** X17: the parameters of every launch of [benyan] on [N = 2^n] keys.
    A compare launch of stage [s] runs at level [s] when it is the first
    of its stage and at level [s + 1] otherwise, so its level is at most
    [n - 1]; the shuffle of stage [s] works on chunks of [2^(s+2)] keys;
    the butterfly of substage [t] works on chunks of [2^(2+s-t)] keys;
    the number of blocks of a permutation launch is [N] over the chunk
    size, so [div] is never zero and the chunks tile the key array. *)
Theorem benyan_launch_parameters (n : Z) :
  1 <= n <= 30 ->
  exists ls,
    benyan_launches (2 ^ n) n = Some ls /\
    Forall (launch_parameters n) ls.
Proof.
  intros Hn. exists (stages_launches (Z.to_nat (n - 1)) (2 ^ n) 0 0).
  split.
  - apply benyan_launches_spec. rewrite two_pow_31. lia.
  - apply stages_launches_parameters; lia.
Qed.

Lemma benyan_launch_parameters_witness :
  exists ls,
    benyan_launches (2 ^ 3) 3 = Some ls /\
    Forall (launch_parameters 3) ls.
Proof.
  apply (benyan_launch_parameters 3). lia.
Defined.

(** ** The shapes of the launches *)

Lemma compBlockNum_pow2 n :
  1 <= n <= 30 ->
  compBlockNum (2 ^ n) = Z.min 65535 (Z.max 1 (2 ^ n / 512)) /\
  1 <= compBlockNum (2 ^ n) <= 65535 /\
  (compBlockNum (2 ^ n) <= 1024 <-> n <= 19).
Proof.
  intros Hn. assert (E : n = Z.of_nat (Z.to_nat n)) by lia.
  rewrite E. clear E.
  assert (Hm : (1 <= Z.to_nat n <= 30)%nat) by lia.
  generalize dependent (Z.to_nat n). clear n Hn. intros m Hm.
  do 31 (destruct m as [|m];
         [try lia; vm_compute; repeat split; intros; congruence|]).
  lia.
Qed.

Lemma threadNum_pow2 n j :
  1 <= n <= 30 -> 0 <= j <= n ->
  threadNum (2 ^ n) (2 ^ (n - j)) = Z.min 1024 (2 ^ j).
Proof.
  intros Hn Hj. unfold threadNum.
  pose proof (pow2_bounds30 (n - j) ltac:(lia)) as B1.
  pose proof (pow2_bounds30 j ltac:(lia)) as B2.
  rewrite to_ulong_id by (rewrite two_pow_64; lia).
  rewrite pow2_div by lia. replace (n - (n - j)) with j by lia.
  apply to_int_id. rewrite two_pow_31. lia.
Qed.

(** X18: the execution configuration of every launch of [benyan] on
    [N = 2^n] keys.  A compare launch has 512 blocks of
    [min(65535, max(1, N/512))] threads; a permutation launch has one
    block for every chunk and [min(1024, size)] threads in a block.
    Every launch has at least one block of at least one thread and fewer
    than [2^32] threads in all.  The blocks of the compare launches have
    at most 1024 threads exactly when [n <= 19]. *)
Theorem benyan_launch_shapes (n : Z) :
  1 <= n <= 30 ->
  (exists ls,
     benyan_launches (2 ^ n) n = Some ls /\
     forall l, In l ls ->
       1 <= fst (launch_shape (l_kernel l)) /\
       1 <= snd (launch_shape (l_kernel l)) /\
       fst (launch_shape (l_kernel l)) * snd (launch_shape (l_kernel l))
         < 2 ^ 32 /\
       match l_kernel l with
       | CompareAndSwap _ _ =>
           launch_shape (l_kernel l)
             = (512, Z.min 65535 (Z.max 1 (2 ^ n / 512)))
       | ShuffleN g size _ | ButterflyN g size _ =>
           launch_shape (l_kernel l) = (g, Z.min 1024 size) /\
           g * size = 2 ^ n
       end) /\
  (compBlockNum (2 ^ n) <= 1024 <-> n <= 19).
Proof.
  intros Hn. destruct (compBlockNum_pow2 n Hn) as [Hc [Hcb Hiff]].
  split; [|exact Hiff].
  exists (stages_launches (Z.to_nat (n - 1)) (2 ^ n) 0 0).
  split; [apply benyan_launches_spec; rewrite two_pow_31; lia|].
  pose proof (stages_launches_parameters n Hn (Z.to_nat (n - 1)) 0
                ltac:(lia) ltac:(lia)) as HF.
  rewrite Forall_forall in HF. intros l Hl. specialize (HF l Hl).
  unfold launch_parameters in HF. cbv zeta in HF.
  destruct HF as [Ht [Hs HK]].
  assert (Hperm : forall j, 2 <= j <= n ->
            1 <= 2 ^ (n - j) /\ 1 <= Z.min 1024 (2 ^ j) /\
            2 ^ (n - j) * Z.min 1024 (2 ^ j) < 2 ^ 32 /\
            2 ^ (n - j) * 2 ^ j = 2 ^ n).
  { intros j Hj.
    pose proof (pow2_bounds30 (n - j) ltac:(lia)) as B1.
    pose proof (pow2_bounds30 j ltac:(lia)) as B2.
    assert (E : 2 ^ (n - j) * 2 ^ j = 2 ^ n)
      by (rewrite <- Z.pow_add_r by lia; f_equal; lia).
    pose proof (pow2_bounds30 n ltac:(lia)) as B3.
    rewrite two_pow_32. split; [lia|]. split; [lia|]. split; [nia|exact E]. }
  destruct (l_kernel l) as [lv N'|g sz N'|g sz N'] eqn:K; cbn [launch_shape fst snd].
  - destruct HK as [-> _]. rewrite Hc in *. unfold compThreadNum.
    rewrite two_pow_32. repeat split; lia.
  - destruct HK as [_ [Hs2 [-> [-> ->]]]].
    replace (n - 2 - l_stage l) with (n - (l_stage l + 2)) by lia.
    rewrite threadNum_pow2 by lia.
    destruct (Hperm (l_stage l + 2) ltac:(lia)) as [H1 [H2 [H3 H4]]].
    repeat split; assumption.
  - destruct HK as [Hs2 [-> [-> ->]]].
    replace (n - 2 - l_stage l + l_substage l)
      with (n - (2 + l_stage l - l_substage l)) by lia.
    rewrite threadNum_pow2 by lia.
    destruct (Hperm (2 + l_stage l - l_substage l) ltac:(lia))
      as [H1 [H2 [H3 H4]]].
    repeat split; assumption.
Qed.

Lemma benyan_launch_shapes_witness :
  (exists ls,
     benyan_launches (2 ^ 20) 20 = Some ls /\
     forall l, In l ls ->
       1 <= fst (launch_shape (l_kernel l)) /\
       1 <= snd (launch_shape (l_kernel l)) /\
       fst (launch_shape (l_kernel l)) * snd (launch_shape (l_kernel l))
         < 2 ^ 32 /\
       match l_kernel l with
       | CompareAndSwap _ _ =>
           launch_shape (l_kernel l)
             = (512, Z.min 65535 (Z.max 1 (2 ^ 20 / 512)))
       | ShuffleN g size _ | ButterflyN g size _ =>
           launch_shape (l_kernel l) = (g, Z.min 1024 size) /\
           g * size = 2 ^ 20
       end) /\
  (compBlockNum (2 ^ 20) <= 1024 <-> 20 <= 19).
Proof.
  apply (benyan_launch_shapes 20). lia.
Defined.

(** ** benyan on the device: where it returns and what it leaves alone *)







Lemma benyan_frame_refl N d : benyan_frame N d d.
Proof. unfold benyan_frame. repeat split; auto. Qed.

Lemma benyan_frame_trans N d1 d2 d3 :
  benyan_frame N d1 d2 -> benyan_frame N d2 d3 -> benyan_frame N d1 d3.
Proof.
  intros [A1 [A2 [A3 [A4 [A5 [A6 A7]]]]]] [B1 [B2 [B3 [B4 [B5 [B6 B7]]]]]].
  unfold benyan_frame. repeat split; try congruence.
  - eapply Permutation_trans; eassumption.
  - intros i Hi. now rewrite B5, A5.
  - intros i Hi. now rewrite B6, A6.
  - intros i Hi. now rewrite B7, A7.
Qed.

Lemma permute_launch_frame ind_out n g sz d r :
  0 <= n <= 30 -> 1 <= g -> 1 <= sz -> g * sz = 2 ^ n ->
  bijective_on sz (ind_out sz) ->
  for_each (range g) (permute_block ind_out sz) (x d, y d) = Some r ->
  benyan_frame (2 ^ n) d (mkDevice (fst r) (snd r) (comparators d)).
Proof.
  intros Hn Hg Hsz Hmul Hbij Hrun.
  pose proof (pow2_bounds30 n Hn) as HN.
  assert (H32 : g * sz < 2 ^ 32) by (rewrite Hmul, two_pow_32; lia).
  destruct (permute_launch_bounds ind_out g sz (x d) (y d) r Hsz Hg H32 Hrun)
    as [Hi Ho].
  destruct (permute_launch_contract ind_out g sz (x d) (y d))
    as [i' [o' [Hrun' [L1 [L2 [Hp [_ [_ Hrest]]]]]]]]; try assumption; try lia.
  rewrite Hrun' in Hrun. injection Hrun as <-. cbn [fst snd].
  unfold benyan_frame. cbn [x y comparators].
  repeat split; try assumption; try reflexivity.
  - intros i Hi2. apply Hrest. lia.
  - intros i Hi2. apply Hrest. lia.
Qed.

(** One launch of benyan on [2^n] keys keeps to the cells of the
    network. *)
Lemma launch_frame n l d d' :
  1 <= n <= 30 -> launch_parameters n l ->
  run_kernel (l_kernel l) d = Some d' ->
  benyan_frame (2 ^ n) d d'.
Proof.
  intros Hn [Ht [Hs HK]] Hrun.
  pose proof (pow2_bounds30 n ltac:(lia)) as HN.
  destruct (l_kernel l) as [lv N'|g sz N'|g sz N']; cbn [run_kernel] in Hrun.
  - destruct HK as [-> _].
    destruct (compareAndSwap (x d) (comparators d) lv (2 ^ n)) as [r|] eqn:E;
      [|discriminate]. cbn [bind] in Hrun. injection Hrun as <-.
    pose proof E as E'.
    apply compareAndSwap_Some in E';
      [|change (2 ^ 62) with 4611686018427387904; lia].
    destruct (compareAndSwap_result (x d) (comparators d) lv (2 ^ n))
      as [i' [c' [Hrun' [L1 [L2 [Hp [_ [Hx Hc]]]]]]]]; try lia.
    rewrite Hrun' in E. injection E as <-. cbn [fst snd].
    unfold benyan_frame. cbn [x y comparators].
    repeat split; try assumption; reflexivity.
  - destruct HK as [_ [Hs2 [-> [-> ->]]]].
    destruct (shuffleN _ _ _ _ _) as [r|] eqn:E; [|discriminate].
    cbn [bind] in Hrun. injection Hrun as <-. unfold shuffleN in E.
    pose proof (pow2_bounds30 (n - 2 - l_stage l) ltac:(lia)) as B1.
    destruct (pow2_shape (l_stage l + 2) ltac:(lia)) as [B2 Hsh].
    apply (permute_launch_frame shuffleN_ind_out n
             (2 ^ (n - 2 - l_stage l)) (2 ^ (l_stage l + 2)) d r);
      try assumption; try lia.
    + rewrite <- Z.pow_add_r by lia. f_equal. lia.
    + apply shuffleN_bijective; [exact B2|].
      destruct Hsh as [->|[q ->]]; [reflexivity|zlia].
  - destruct HK as [Hs2 [-> [-> ->]]].
    destruct (butterflyN _ _ _ _ _) as [r|] eqn:E; [|discriminate].
    cbn [bind] in Hrun. injection Hrun as <-. unfold butterflyN in E.
    pose proof (pow2_bounds30 (n - 2 - l_stage l + l_substage l) ltac:(lia))
      as B1.
    destruct (pow2_shape (2 + l_stage l - l_substage l) ltac:(lia))
      as [B2 Hsh].
    apply (permute_launch_frame butterflyN_ind_out n
             (2 ^ (n - 2 - l_stage l + l_substage l))
             (2 ^ (2 + l_stage l - l_substage l)) d r);
      try assumption; try lia.
    + rewrite <- Z.pow_add_r by lia. f_equal. lia.
    + now apply butterflyN_bijective.
Qed.

Lemma run_launches_frame n ls :
  1 <= n <= 30 -> Forall (launch_parameters n) ls ->
  forall d d', run_launches ls d = Some d' -> benyan_frame (2 ^ n) d d'.
Proof.
  intros Hn HF. induction HF as [|l ls Hl HF IH]; intros d d' Hrun.
  - cbn in Hrun. injection Hrun as <-. apply benyan_frame_refl.
  - cbn [run_launches] in Hrun.
    destruct (run_kernel (l_kernel l) d) as [d1|] eqn:E; [|discriminate].
    cbn [bind] in Hrun.
    apply (benyan_frame_trans _ d d1 d').
    + exact (launch_frame n l d d1 Hn Hl E).
    + exact (IH d1 d' Hrun).
Qed.

(** X20: what [benyan] leaves alone.  Whenever [benyan] on [N = 2^n]
    keys returns, the three buffers have kept their lengths, [x] holds
    the values it held, rearranged, and nothing has changed in [x] from
    cell [2N] on, nor in [y] and [comparators] from cell [N] on. *)
Theorem benyan_keeps_to_its_cells (n : Z) (d d' : device) :
  0 <= n <= 30 -> benyan d (2 ^ n) n = Some d' ->
  benyan_frame (2 ^ n) d d'.
Proof.
  intros Hn Hrun. destruct (Z.eq_dec n 0) as [->|Hn0].
  - cbn in Hrun. injection Hrun as <-. apply benyan_frame_refl.
  - unfold benyan in Hrun.
    rewrite benyan_launches_spec in Hrun by (rewrite two_pow_31; lia).
    cbn [bind] in Hrun.
    apply (run_launches_frame n (stages_launches (Z.to_nat (n - 1)) (2 ^ n) 0 0));
      [lia| |exact Hrun].
    apply stages_launches_parameters; lia.
Qed.

Lemma benyan_keeps_to_its_cells_witness :
  benyan_frame (2 ^ 2)
    (mkDevice [3; 1; 4; 1; 9; 2; 6; 5; 7] [0; 0; 0; 0; 8]
       [false; false; false; false; true])
    (mkDevice [1; 1; 3; 4; 9; 2; 6; 5; 7] [1; 1; 4; 3; 8]
       [false; false; true; true; true]).
Proof.
  apply (benyan_keeps_to_its_cells 2
           (mkDevice [3; 1; 4; 1; 9; 2; 6; 5; 7] [0; 0; 0; 0; 8]
              [false; false; false; false; true]));
    [lia|reflexivity].
Defined.




(** ** The benchmark entry point *)












(** ** The direction of a comparator *)

(** X24: the direction flag of comparator [comp_ind] at a level from 0
    to 30 is bit [level] of [comp_ind]: the comparators form aligned
    blocks of [2^level] with one direction each, and the direction
    alternates from one block to the next. *)
Theorem comp_bool_is_bit_of_position (comp_ind level : Z) :
  0 <= level <= 30 ->
  comp_bool comp_ind level = Z.testbit comp_ind level /\
  comp_bool comp_ind level = Z.odd (comp_ind / 2 ^ level) /\
  comp_bool (comp_ind + 2 ^ level) level = negb (comp_bool comp_ind level) /\
  (forall q i, 0 <= i < 2 ^ level ->
     comp_bool (q * 2 ^ level + i) level = Z.odd q).
Proof.
  intros Hl. pose proof (pow2_pos level ltac:(lia)) as Hp.
  split; [now apply comp_bool_testbit|].
  split; [now apply comp_bool_odd|]. split.
  - rewrite !comp_bool_odd by exact Hl.
    replace (comp_ind + 2 ^ level) with (comp_ind + 1 * 2 ^ level) by lia.
    rewrite Z.div_add by lia. rewrite Z.odd_add. cbn [Z.odd].
    now destruct (Z.odd (comp_ind / 2 ^ level)).
  - intros q i Hi. rewrite comp_bool_odd by exact Hl.
    rewrite Z.add_comm, Z.div_add by lia.
    now rewrite Z.div_small, Z.add_0_l by lia.
Qed.

Lemma comp_bool_is_bit_of_position_witness :
  comp_bool 6 1 = Z.testbit 6 1 /\
  comp_bool 6 1 = Z.odd (6 / 2 ^ 1) /\
  comp_bool (6 + 2 ^ 1) 1 = negb (comp_bool 6 1) /\
  (forall q i, 0 <= i < 2 ^ 1 -> comp_bool (q * 2 ^ 1 + i) 1 = Z.odd q).
Proof.
  apply (comp_bool_is_bit_of_position 6 1). lia.
Defined.

(** ** The compare launches that change nothing *)









(** ** The cells behind the keys *)





(** ** Where getN returns *)

Lemma getN_loop_min_int size fuel :
  0 < size -> getN_loop fuel size (- 2 ^ 31) = None.
Proof.
  intros H. destruct fuel as [|fuel]; [reflexivity|].
  rewrite getN_loop_step by (rewrite two_pow_31; lia).
  replace (to_int (- 2 ^ 31 * 2)) with 0 by reflexivity.
  now apply getN_loop_zero.
Qed.

Lemma getN_loop_diverges size :
  2 ^ 30 < size ->
  forall (j : nat) k fuel,
    1 <= k <= 30 -> k + Z.of_nat j = 30 ->
    getN_loop fuel size (2 ^ k) = None.
Proof.
  intros Hs. induction j as [|j IH]; intros k fuel Hk Hj.
  - assert (k = 30) by lia. subst k.
    destruct fuel as [|fuel]; [reflexivity|].
    rewrite getN_loop_step by exact Hs.
    replace (to_int (2 ^ 30 * 2)) with (- 2 ^ 31) by reflexivity.
    apply getN_loop_min_int. rewrite two_pow_30 in Hs. lia.
  - destruct fuel as [|fuel]; [reflexivity|].
    assert (Hlt : 2 ^ k < size).
    { assert (2 ^ k <= 2 ^ 30) by (apply pow2_le_mono; lia). lia. }
    rewrite getN_loop_step by exact Hlt.
    assert (Hb : 2 ^ (k + 1) <= 2 ^ 30) by (apply pow2_le_mono; lia).
    rewrite pow2_succ in Hb by lia. rewrite two_pow_30 in Hb.
    pose proof (pow2_pos k ltac:(lia)) as Hp.
    rewrite to_int_id by (rewrite two_pow_31; lia).
    replace (2 ^ k * 2) with (2 ^ (k + 1)) by (rewrite pow2_succ; lia).
    apply IH; lia.
Qed.

(** X27: [getN] returns exactly for the sizes up to [2^30].  For every
    larger size the doubling of [N] leaves [int]: [N] goes from [2^30] to
    [-2^31], then to 0, and stays below [size] for ever, so the loop does
    not end whatever the number of iterations allowed. *)
Theorem getN_returns_iff (size : Z) :
  (exists fuel r, getN fuel size = Some r) <-> size <= 2 ^ 30.
Proof.
  split.
  - intros [fuel [r H]].
    destruct (Z_le_gt_dec size (2 ^ 30)) as [Hle|Hgt]; [exact Hle|].
    unfold getN in H. change 2 with (2 ^ 1) in H at 1.
    rewrite (getN_loop_diverges size ltac:(lia) 29 1 fuel) in H by lia.
    discriminate H.
  - intros Hs.
    destruct (getN_loop_spec size Hs 30 1) as [j [_ [Hg _]]]; try lia.
    exists 30%nat, (2 ^ j). exact Hg.
Qed.
